(** * quorum: single-decree Paxos (proposer, storage, node dispatch)

    A shallow embedding of the Go sources of the repository
    ([internal/paxos], [internal/storage], [internal/node]) together
    with the properties of its natural-language specification.

    - Go [int64] is [Z] with the wrap-around of [++] written out.
    - Go [string] is [string]; comparison is byte-wise lexicographic.
    - Go [[]byte] is [list byte] where only the contents matter (proposer,
      messages) and a reference into a heap of backing arrays where
      aliasing matters (in-memory storage).
    - Methods with pointer receivers become functions from the old
      receiver to the new one; the transport is explicit state. *)

From Stdlib Require Import ZArith String List Bool Lia Sorted.
From Stdlib Require Import OrderedTypeEx.
From stdpp Require Import base gmap list.

Import ListNotations.

(** ** Machine integers *)

Module Int64.
Local Open Scope Z_scope.

Definition min_int : Z := - 2 ^ 63.
Definition max_int : Z := 2 ^ 63 - 1.

Definition in_range (z : Z) : Prop := min_int <= z <= max_int.

(** Two's-complement reduction of an exact result to 64 bits. *)
Definition wrap (z : Z) : Z := (z + 2 ^ 63) mod 2 ^ 64 - 2 ^ 63.

(** [x++] on an [int64]. *)
Definition incr (x : Z) : Z := wrap (x + 1).

End Int64.

(** ** Byte strings and errors *)

Definition bytes := list Byte.byte.

(** The contents of a Go string literal converted to [[]byte]. *)
Definition bytes_of (s : string) : bytes := list_byte_of_string s.

(** Go [error] values that occur: the sentinel [ErrRejected] of the
    proposer and whatever the transport reports. *)
Inductive error : Type :=
| ErrRejected
| ErrTransport (reason : string).

(** ** Proposal numbers *)

Record ProposalNumber : Type := mkPN {
  Round : Z;
  ProposerID : string
}.

Module PN.
Local Open Scope Z_scope.

(** The Go zero value [ProposalNumber{}]. *)
Definition zero : ProposalNumber := mkPN 0 EmptyString.

(** Modelled from the spec: the methods of [ProposalNumber] are named
    in proposal.go only as TODO items.  Section 3.1 fixes the order:
    lexicographic, [round] first and [proposer_id] as tiebreaker. *)
Definition compare (a b : ProposalNumber) : comparison :=
  match Round a ?= Round b with
  | Eq => String.compare (ProposerID a) (ProposerID b)
  | c => c
  end.

(** Modelled from the spec: [Equal] (missing from proposal.go), equality
    of both components. *)
Definition Equal (a b : ProposalNumber) : bool :=
  match compare a b with Eq => true | _ => false end.

(** Modelled from the spec: [LessThan] (missing from proposal.go), the
    strict lexicographic order of section 3.1. *)
Definition LessThan (a b : ProposalNumber) : bool :=
  match compare a b with Lt => true | _ => false end.

(** Modelled from the spec: [GreaterThan] (missing from proposal.go),
    the converse of [LessThan]. *)
Definition GreaterThan (a b : ProposalNumber) : bool :=
  match compare a b with Gt => true | _ => false end.

(** Modelled from the spec: [IsZero] (missing from proposal.go); the
    zero identifier of section 3.1 has round 0 and the empty proposer. *)
Definition IsZero (a : ProposalNumber) : bool := Equal a zero.

(** [a <= b], as a proposition. *)
Definition le (a b : ProposalNumber) : Prop := LessThan b a = false.

End PN.

(** ** Messages (message.go) *)

Record Prepare : Type := mkPrepare {
  Prepare_ProposalNumber : ProposalNumber;
  Prepare_From : string
}.

Record Promise : Type := mkPromise {
  Promise_ProposalNumber : ProposalNumber;
  Promise_AcceptedProposal : ProposalNumber;
  Promise_AcceptedValue : bytes;
  Promise_From : string;
  Promise_OK : bool
}.

Record Reject : Type := mkReject {
  Reject_ProposalNumber : ProposalNumber;
  Reject_HighestSeen : ProposalNumber;
  Reject_From : string
}.

Record Accept : Type := mkAccept {
  Accept_ProposalNumber : ProposalNumber;
  Accept_Value : bytes;
  Accept_From : string
}.

Record Accepted : Type := mkAccepted {
  Accepted_ProposalNumber : ProposalNumber;
  Accepted_Value : bytes;
  Accepted_From : string;
  Accepted_OK : bool
}.

Record Learn : Type := mkLearn {
  Learn_ProposalNumber : ProposalNumber;
  Learn_Value : bytes;
  Learn_From : string
}.

(** The six struct types of message.go. *)
Inductive Payload : Type :=
| PPrepare (m : Prepare)
| PPromise (m : Promise)
| PReject (m : Reject)
| PAccept (m : Accept)
| PAccepted (m : Accepted)
| PLearn (m : Learn).

(** A value of interface type [transport.Message] (or [interface{}]):
    its dynamic type is one of the structs, a pointer to one of them,
    or some other type with a [GetFrom] method, such as
    [*messageWrapper].  Type switches and type assertions tell these
    apart. *)
Inductive Message : Type :=
| ByValue (p : Payload)
| ByPointer (p : Payload)
| OtherMessage (from : string).

Definition Payload_GetFrom (p : Payload) : string :=
  match p with
  | PPrepare m => Prepare_From m
  | PPromise m => Promise_From m
  | PReject m => Reject_From m
  | PAccept m => Accept_From m
  | PAccepted m => Accepted_From m
  | PLearn m => Learn_From m
  end.

Definition GetFrom (m : Message) : string :=
  match m with
  | ByValue p | ByPointer p => Payload_GetFrom p
  | OtherMessage from => from
  end.

(** ** In-memory storage (internal/storage/memory.go)

    A [[]byte] is a reference to a backing array; [make] allocates a
    fresh array and [copy] writes into an existing one.  Two slices
    alias when they name the same array, which is what the defensive
    copies of [SaveAccepted] and [LoadAccepted] are there to prevent.
    The mutex only serialises the methods and is not modelled. *)

Module Storage.

Definition loc := nat.

Abbreviation heap := (gmap loc (list Byte.byte)).

(** [None] is the nil slice.  The code never re-slices, so a slice
    always spans its whole backing array. *)
Definition slice := option loc.

Definition contents (h : heap) (s : slice) : list Byte.byte :=
  match s with
  | None => []
  | Some l => default [] (h !! l)
  end.

Definition len (h : heap) (s : slice) : nat := length (contents h s).

(** The slice refers to an array that exists (or is nil). *)
Definition allocated (h : heap) (s : slice) : Prop :=
  match s with
  | None => True
  | Some l => l ∈ dom h
  end.

(** [make([]byte, n)]: a new array of [n] zero bytes. *)
Definition make (h : heap) (n : nat) : heap * slice :=
  let l := fresh (dom h) in
  (<[l := replicate n Byte.x00]> h, Some l).

(** [copy(dst, src)]: the first [min(len(dst), len(src))] bytes of
    [src] overwrite the beginning of [dst]. *)
Definition copy (h : heap) (dst src : slice) : heap :=
  match dst with
  | None => h
  | Some d =>
      match h !! d with
      | None => h
      | Some db =>
          let sb := contents h src in
          <[d := take (length db) sb ++ drop (length sb) db]> h
      end
  end.

(** [s[i] = b] by a holder of the slice [s]; an index out of range
    panics in Go and leaves the heap as it is here. *)
Definition write (h : heap) (s : slice) (i : nat) (b : Byte.byte) : heap :=
  match s with
  | None => h
  | Some l =>
      match h !! l with
      | None => h
      | Some buf => <[l := <[i := b]> buf]> h
      end
  end.

Record MemoryStorage : Type := mkMemoryStorage {
  highestPromised : ProposalNumber;
  acceptedProposal : ProposalNumber;
  acceptedValue : slice
}.

Definition NewMemoryStorage : MemoryStorage :=
  mkMemoryStorage PN.zero PN.zero None.

Definition SavePromised (m : MemoryStorage) (proposal : ProposalNumber)
  : MemoryStorage * option error :=
  (mkMemoryStorage proposal (acceptedProposal m) (acceptedValue m), None).

Definition LoadPromised (m : MemoryStorage) : ProposalNumber * option error :=
  (highestPromised m, None).

Definition SaveAccepted (h : heap) (m : MemoryStorage)
    (proposal : ProposalNumber) (value : slice)
  : heap * MemoryStorage * option error :=
  let '(h1, buf) := make h (len h value) in
  let h2 := copy h1 buf value in
  (h2, mkMemoryStorage (highestPromised m) proposal buf, None).

Definition LoadAccepted (h : heap) (m : MemoryStorage)
  : heap * (ProposalNumber * slice * option error) :=
  let '(h1, result) := make h (len h (acceptedValue m)) in
  let h2 := copy h1 result (acceptedValue m) in
  (h2, (acceptedProposal m, result, None)).

Definition Close (m : MemoryStorage) : MemoryStorage * option error :=
  (mkMemoryStorage PN.zero PN.zero None, None).

Definition Reset (m : MemoryStorage) : MemoryStorage :=
  mkMemoryStorage PN.zero PN.zero None.

(** What a caller does with the store and the slices it holds after a
    [SaveAccepted]: it writes into one of its slices, or it loads. *)
Inductive clientOp : Type :=
| Mutate (which : nat) (i : nat) (b : Byte.byte)
| Load.

(** Runs the operations; [held] are the slices in the caller's hands
    (the buffer it passed to [SaveAccepted] and every slice a
    [LoadAccepted] has returned so far).  The result lists what each
    [Load] returned: the proposal and the bytes of the returned
    slice at that moment. *)
Fixpoint runClient (ops : list clientOp) (h : heap) (held : list slice)
    (m : MemoryStorage) : list (ProposalNumber * list Byte.byte) :=
  match ops with
  | [] => []
  | Mutate which i b :: ops' =>
      runClient ops' (write h (default None (held !! which)) i b) held m
  | Load :: ops' =>
      let '(h', (p, r, _)) := LoadAccepted h m in
      (p, contents h' r) :: runClient ops' h' (held ++ [r]) m
  end.

(** The store keeps the bytes [c] under proposal [p] in an array of its
    own, which none of the slices in [held] names. *)
Definition keeps (h : heap) (m : MemoryStorage) (held : list slice)
    (p : ProposalNumber) (c : list Byte.byte) : Prop :=
  acceptedProposal m = p /\
  exists l, acceptedValue m = Some l /\ h !! l = Some c /\
            Forall (fun s => s <> Some l) held.

End Storage.


(** ** Acceptor (internal/paxos/acceptor.go)

    acceptor.go holds the package clause and a description of the
    acceptor only; the definitions below follow section 4.2 of the
    specification. *)

Module Acceptor.

(** Modelled from the spec: the durable store as the acceptor uses it
    (section 6.3); values are copied in and out, so the store holds
    plain byte strings. *)
Record Durable : Type := mkDurable {
  stored_promised : ProposalNumber;
  stored_accepted : ProposalNumber;
  stored_value : bytes
}.

(** Modelled from the spec: [save_promised] of section 6.3. *)
Definition save_promised (d : Durable) (p : ProposalNumber) : Durable :=
  mkDurable p (stored_accepted d) (stored_value d).

(** Modelled from the spec: [save_accepted] of section 6.3. *)
Definition save_accepted (d : Durable) (p : ProposalNumber) (v : bytes)
  : Durable :=
  mkDurable (stored_promised d) p v.

(** Modelled from the spec: the acceptor state of section 3.2 together
    with its id and its store. *)
Record Acceptor : Type := mkAcceptor {
  id : string;
  highest_promised : ProposalNumber;
  accepted_proposal : ProposalNumber;
  accepted_value : bytes;
  storage : Durable
}.

(** Modelled from the spec: [new_node] rehydrates the acceptor from its
    store (section 6.1); a store never written holds zero and empty. *)
Definition NewAcceptor (id : string) (s : Durable) : Acceptor :=
  mkAcceptor id (stored_promised s) (stored_accepted s) (stored_value s) s.

(** Modelled from the spec: [handle_prepare] of section 4.2 (the Go
    [HandlePrepare] is missing).  A rejection reports
    [highest_promised] in the [accepted_proposal] field (section 4.4). *)
Definition HandlePrepare (a : Acceptor) (msg : Prepare) : Acceptor * Promise :=
  let n := Prepare_ProposalNumber msg in
  if PN.GreaterThan n (highest_promised a) then
    (mkAcceptor (id a) n (accepted_proposal a) (accepted_value a)
       (save_promised (storage a) n),
     mkPromise n (accepted_proposal a) (accepted_value a) (id a) true)
  else
    (a, mkPromise n (highest_promised a) [] (id a) false).

(** Modelled from the spec: [handle_accept] of section 4.2 (the Go
    [HandleAccept] is missing); [>=] is "not less than". *)
Definition HandleAccept (a : Acceptor) (msg : Accept) : Acceptor * Accepted :=
  let n := Accept_ProposalNumber msg in
  let v := Accept_Value msg in
  if negb (PN.LessThan n (highest_promised a)) then
    (mkAcceptor (id a) n n v
       (save_accepted (save_promised (storage a) n) n v),
     mkAccepted n v (id a) true)
  else
    (a, mkAccepted n [] (id a) false).

(** Modelled from the spec: [snapshot] of section 4.2. *)
Definition GetState (a : Acceptor) : ProposalNumber * ProposalNumber * bytes :=
  (highest_promised a, accepted_proposal a, accepted_value a).

End Acceptor.

(** ** Transport as the proposer sees it

    The proposer holds a [Transport] with [Broadcast] and [Receive].
    No implementation is part of the sources. *)

Module Transport.

(** What one call of [Receive] yields when it returns. *)
Inductive event : Type :=
| Deliver (m : Message)
| Fail (e : error).

(** Modelled from the spec: the transport of section 6.4, missing from
    transport.go.  [inbox] is what the next calls of [Receive] return,
    in order.  Once the inbox is used up, a transport with [closing]
    set is closed for good: [Receive] and [Broadcast] return an error
    on every call.  Without [closing] nothing arrives any more and
    [Receive] blocks.  [sent] records the broadcasts, oldest first. *)
Record Transport : Type := mkTransport {
  inbox : list event;
  closing : bool;
  sent : list Message
}.

(** Modelled from the spec: the error a closed transport reports. *)
Definition ErrClosed : error := ErrTransport "transport closed".

(** Modelled from the spec: the transport has been closed and has
    nothing left to deliver. *)
Definition isClosed (t : Transport) : bool :=
  closing t && match inbox t with [] => true | _ => false end.

(** Modelled from the spec: [broadcast] of section 6.4. *)
Definition Broadcast (t : Transport) (msg : Message)
  : Transport * option error :=
  if isClosed t then (t, Some ErrClosed)
  else (mkTransport (inbox t) (closing t) (sent t ++ [msg]), None).

(** The transport with its inbox replaced by what is left of it. *)
Definition rest (t : Transport) (events : list event) : Transport :=
  mkTransport events (closing t) (sent t).

(** Modelled from the spec: [receive] of section 6.4.  [None] stands
    for a call that never returns. *)
Definition Receive (t : Transport) : option event * Transport :=
  match inbox t with
  | ev :: events => (Some ev, rest t events)
  | [] => if closing t then (Some (Fail ErrClosed), t) else (None, t)
  end.

(** A transport that is closed from the start. *)
Definition closed : Transport := mkTransport [] true [].

End Transport.

(** ** Proposer (internal/paxos/proposer.go) *)

Module Proposer.
Import Transport.
Local Open Scope Z_scope.

Record Proposer : Type := mkProposer {
  id : string;
  highestRound : Z;
  currentProposal : ProposalNumber;
  originalValue : bytes;
  valueToPropose : bytes;
  promise : list Promise;
  quorumSize : Z
}.

Definition NewProposer (id : string) (quorumSize : Z) : Proposer :=
  mkProposer id 0 PN.zero [] [] [] quorumSize.

(** How a phase ends: it returns nil, it returns an error, or its
    [Receive] never returns. *)
Inductive status : Type :=
| Ok
| Err (e : error)
| Blocked.

Definition generateProposalNumber (p : Proposer) : Proposer * ProposalNumber :=
  let r := Int64.incr (highestRound p) in
  (mkProposer (id p) r (currentProposal p) (originalValue p)
     (valueToPropose p) (promise p) (quorumSize p),
   mkPN r (id p)).

Definition handleRejection (p : Proposer) (highestSeen : ProposalNumber)
  : Proposer :=
  if Round highestSeen >? highestRound p then
    mkProposer (id p) (Round highestSeen) (currentProposal p)
      (originalValue p) (valueToPropose p) (promise p) (quorumSize p)
  else p.

(** [p.promise = append(p.promise, promise)]. *)
Definition appendPromise (p : Proposer) (pr : Promise) : Proposer :=
  mkProposer (id p) (highestRound p) (currentProposal p) (originalValue p)
    (valueToPropose p) (promise p ++ [pr]) (quorumSize p).

Definition setValueToPropose (p : Proposer) (v : bytes) : Proposer :=
  mkProposer (id p) (highestRound p) (currentProposal p) (originalValue p)
    v (promise p) (quorumSize p).

(** The first loop of [runPhase1], [for promiseCount < p.quorumSize].
    It recurses on the inbox, of which every call of [Receive] takes
    the head ([awaitPromises_Receive] below states the loop over
    [Receive]).  The count is bounded by the quorum size, so
    [promiseCount++] does not overflow. *)
Fixpoint awaitPromises (events : list event) (closing : bool)
    (p : Proposer) (promiseCount : Z)
  : Proposer * list event * status :=
  if promiseCount <? quorumSize p then
    match events with
    | [] => if closing then (p, [], Err ErrClosed) else (p, [], Blocked)
    | Fail e :: events' => (p, events', Err e)
    | Deliver (ByValue (PPromise pr)) :: events' =>
        if negb (PN.Equal (Promise_ProposalNumber pr) (currentProposal p))
        then awaitPromises events' closing p promiseCount
        else if negb (Promise_OK pr)
        then (handleRejection p (Promise_AcceptedProposal pr), events',
              Err ErrRejected)
        else awaitPromises events' closing (appendPromise p pr)
               (promiseCount + 1)
    | Deliver _ :: events' => awaitPromises events' closing p promiseCount
    end
  else (p, events, Ok).

(** The body of the second loop of [runPhase1]; [acc] holds
    [highestAccepted] and [p.valueToPropose]. *)
Definition adoptStep (acc : ProposalNumber * bytes) (pr : Promise)
  : ProposalNumber * bytes :=
  if negb (PN.IsZero (Promise_AcceptedProposal pr)) then
    if PN.GreaterThan (Promise_AcceptedProposal pr) (fst acc)
    then (Promise_AcceptedProposal pr, Promise_AcceptedValue pr)
    else acc
  else acc.

(** The second loop of [runPhase1], [for _, promise := range p.promise],
    from the zero value of [highestAccepted] and the current
    [valueToPropose]. *)
Definition highestAccepted (promises : list Promise) (v : bytes)
  : ProposalNumber * bytes :=
  fold_left adoptStep promises (PN.zero, v).

Definition runPhase1 (p : Proposer) (t : Transport)
  : Proposer * Transport * status :=
  let prepareMsg := mkPrepare (currentProposal p) (id p) in
  let t := fst (Broadcast t (ByValue (PPrepare prepareMsg))) in
  match awaitPromises (inbox t) (closing t) p 0 with
  | (p, events, Ok) =>
      (setValueToPropose p
         (snd (highestAccepted (promise p) (valueToPropose p))),
       rest t events, Ok)
  | (p, events, st) => (p, rest t events, st)
  end.

(** The loop of [runPhase2], [for acceptedCount < p.quorumSize]. *)
Fixpoint awaitAccepted (events : list event) (closing : bool)
    (p : Proposer) (acceptedCount : Z)
  : list event * status :=
  if acceptedCount <? quorumSize p then
    match events with
    | [] => if closing then ([], Err ErrClosed) else ([], Blocked)
    | Fail e :: events' => (events', Err e)
    | Deliver (ByValue (PAccepted ac)) :: events' =>
        if negb (PN.Equal (Accepted_ProposalNumber ac) (currentProposal p))
        then awaitAccepted events' closing p acceptedCount
        else if negb (Accepted_OK ac)
        then (events', Err ErrRejected)
        else awaitAccepted events' closing p (acceptedCount + 1)
    | Deliver _ :: events' => awaitAccepted events' closing p acceptedCount
    end
  else (events, Ok).

Definition runPhase2 (p : Proposer) (t : Transport)
  : Proposer * Transport * status :=
  let acceptMsg := mkAccept (currentProposal p) (valueToPropose p) (id p) in
  let t := fst (Broadcast t (ByValue (PAccept acceptMsg))) in
  match awaitAccepted (inbox t) (closing t) p 0 with
  | (events, Ok) =>
      let learnMsg :=
        mkLearn (currentProposal p) (valueToPropose p) (id p) in
      (p, fst (Broadcast (rest t events) (ByValue (PLearn learnMsg))), Ok)
  | (events, st) => (p, rest t events, st)
  end.

(** The head of the body of the loop in [Propose]:
    [p.currentProposal = p.generateProposalNumber(); p.promise = nil]. *)
Definition beginAttempt (p : Proposer) : Proposer :=
  let '(p, n) := generateProposalNumber p in
  mkProposer (id p) (highestRound p) n (originalValue p)
    (valueToPropose p) [] (quorumSize p).

(** What a call of [Propose] comes to: it returns a value and an error,
    a [Receive] blocks for ever, or the loop is still running when the
    fuel of the model is used up. *)
Inductive outcome : Type :=
| Returned (value : bytes) (err : option error) (p : Proposer) (t : Transport)
| Waiting (p : Proposer) (t : Transport)
| Running (p : Proposer) (t : Transport).

(** The [for] loop of [Propose]; one unit of fuel per attempt. *)
Fixpoint proposeLoop (fuel : nat) (p : Proposer) (t : Transport) : outcome :=
  match fuel with
  | O => Running p t
  | S fuel' =>
      let p := beginAttempt p in
      match runPhase1 p t with
      | (p, t, Blocked) => Waiting p t
      | (p, t, Err _) => proposeLoop fuel' p t
      | (p, t, Ok) =>
          match runPhase2 p t with
          | (p, t, Blocked) => Waiting p t
          | (p, t, Err _) => proposeLoop fuel' p t
          | (p, t, Ok) => Returned (valueToPropose p) None p t
          end
      end
  end.

Definition Propose (fuel : nat) (p : Proposer) (t : Transport)
    (value : bytes) : outcome :=
  proposeLoop fuel
    (mkProposer (id p) (highestRound p) (currentProposal p) value value
       (promise p) (quorumSize p))
    t.

(** The promises of ok=true for [current] among delivered messages, in
    the order of arrival: what the first loop of [runPhase1] counts. *)
Definition grantsFor (current : ProposalNumber) (events : list event)
  : list Promise :=
  omap (fun ev =>
          match ev with
          | Deliver (ByValue (PPromise pr)) =>
              if PN.Equal (Promise_ProposalNumber pr) current
                 && Promise_OK pr
              then Some pr else None
          | _ => None
          end) events.

(** The same for the [Accepted] messages that [runPhase2] counts. *)
Definition acceptsFor (current : ProposalNumber) (events : list event)
  : list Accepted :=
  omap (fun ev =>
          match ev with
          | Deliver (ByValue (PAccepted ac)) =>
              if PN.Equal (Accepted_ProposalNumber ac) current
                 && Accepted_OK ac
              then Some ac else None
          | _ => None
          end) events.

(** The acceptor ids that occur, without repetition. *)
Definition distinctIds (ids : list string) : list string :=
  remove_dups ids.

(** One step of a proposer that alternates between drawing a new
    proposal number and processing a rejection. *)
Inductive roundOp : Type :=
| Generate
| Rejected (highestSeen : ProposalNumber).

(** The proposal numbers emitted along a sequence of such steps. *)
Fixpoint emitted (ops : list roundOp) (p : Proposer) : list ProposalNumber :=
  match ops with
  | [] => []
  | Generate :: ops' =>
      let '(p', n) := generateProposalNumber p in n :: emitted ops' p'
  | Rejected hs :: ops' => emitted ops' (handleRejection p hs)
  end.

(** The proposer after the steps. *)
Fixpoint after (ops : list roundOp) (p : Proposer) : Proposer :=
  match ops with
  | [] => p
  | Generate :: ops' => after ops' (fst (generateProposalNumber p))
  | Rejected hs :: ops' => after ops' (handleRejection p hs)
  end.


(** Strictly increasing, in the order of [PN.LessThan]. *)
Definition increasing (ns : list ProposalNumber) : Prop :=
  StronglySorted (fun a b => PN.LessThan a b = true) ns.

End Proposer.

(** ** Node (internal/node/node.go)

    The node owns a proposer, an acceptor and a learner.  The acceptor
    and the learner enter [routeMessage] only through their handlers,
    whose Go code is not part of the sources, so they are parameters
    here. *)

Module Node.

(** A line written by [log.Printf]. *)
Inductive logLine : Type :=
| LogReceiveError (id : string) (e : error)
| LogUnknownMessageType (id : string) (msg : Message).

(** What [routeMessage] does to the outside: [n.transport.Send] and
    the log. *)
Inductive effect : Type :=
| Send (to : string) (msg : Message)
| Log (line : logLine).

(** What [ReceiveTimeout] returns to the receive loop. *)
Inductive received : Type :=
| Timeout
| ReceiveError (e : error)
| Arrived (msg : Message).

Section WithRoles.

Context {AcceptorT LearnerT : Type}.
Context (HandlePrepare : AcceptorT -> Prepare -> AcceptorT * Promise).
Context (HandleAccept : AcceptorT -> Accept -> AcceptorT * Accepted).
Context (HandleAccepted : LearnerT -> Accepted -> LearnerT).
Context (HandleLearn : LearnerT -> Learn -> LearnerT).

Record Node : Type := mkNode {
  id : string;
  proposer : Proposer.Proposer;
  acceptor : AcceptorT;
  learner : LearnerT;
  quorumSize : Z
}.

Definition withAcceptor (n : Node) (a : AcceptorT) : Node :=
  mkNode (id n) (proposer n) a (learner n) (quorumSize n).

Definition withLearner (n : Node) (l : LearnerT) : Node :=
  mkNode (id n) (proposer n) (acceptor n) l (quorumSize n).

(** [case paxos.Prepare] and [case *paxos.Prepare]. *)
Definition routePrepare (n : Node) (m : Prepare) : Node * list effect :=
  let '(a, response) := HandlePrepare (acceptor n) m in
  (withAcceptor n a, [Send (Prepare_From m) (ByValue (PPromise response))]).

(** [case paxos.Accept] and [case *paxos.Accept]. *)
Definition routeAccept (n : Node) (m : Accept) : Node * list effect :=
  let '(a, response) := HandleAccept (acceptor n) m in
  let n := withAcceptor n a in
  let n :=
    if Accepted_OK response
    then withLearner n (HandleAccepted (learner n) response)
    else n in
  (n, [Send (Accept_From m) (ByValue (PAccepted response))]).

(** The type switch of [routeMessage]: eight cases, for the values of
    [Prepare], [Accept], [Accepted] and [Learn] and the pointers to
    them, and the default. *)
Definition routeMessage (n : Node) (msg : Message) : Node * list effect :=
  match msg with
  | ByValue (PPrepare m) | ByPointer (PPrepare m) => routePrepare n m
  | ByValue (PAccept m) | ByPointer (PAccept m) => routeAccept n m
  | ByValue (PAccepted m) | ByPointer (PAccepted m) =>
      (withLearner n (HandleAccepted (learner n) m), [])
  | ByValue (PLearn m) | ByPointer (PLearn m) =>
      (withLearner n (HandleLearn (learner n) m), [])
  | _ => (n, [Log (LogUnknownMessageType (id n) msg)])
  end.

(** The receive loop [handleMessages], over what [ReceiveTimeout]
    returns until the stop channel is closed. *)
Fixpoint handleMessages (n : Node) (rs : list received)
  : Node * list effect :=
  match rs with
  | [] => (n, [])
  | Timeout :: rs' => handleMessages n rs'
  | ReceiveError e :: rs' =>
      let '(n', es) := handleMessages n rs' in
      (n', Log (LogReceiveError (id n) e) :: es)
  | Arrived msg :: rs' =>
      let '(n1, es1) := routeMessage n msg in
      let '(n2, es2) := handleMessages n1 rs' in
      (n2, es1 ++ es2)
  end.

End WithRoles.

End Node.

(** ** Concrete runs *)

Module Scenario.
Import Transport Proposer.
Local Open Scope Z_scope.

(** A promise of [from] for proposal [n] that reports the accepted
    proposal [acc] with value [v]. *)
Definition promiseFrom (from : string) (n acc : ProposalNumber) (v : bytes)
  : event :=
  Deliver (ByValue (PPromise (mkPromise n acc v from true))).

Definition acceptedFrom (from : string) (n : ProposalNumber) (v : bytes)
    (ok : bool) : event :=
  Deliver (ByValue (PAccepted (mkAccepted n v from ok))).

(** Three nodes, quorum 2, proposer [n0] asked to propose "B".  Round 1:
    [n1] reports that it accepted "A" at (1, a0), [n2] reports nothing;
    [n1] then rejects the Accept.  Round 2: [n2] and [n0] promise and
    report no accepted proposal, and both accept. *)
Definition retryInbox : list event :=
  [ promiseFrom "n1" (mkPN 1 "n0") (mkPN 1 "a0") (bytes_of "A");
    promiseFrom "n2" (mkPN 1 "n0") PN.zero [];
    acceptedFrom "n1" (mkPN 1 "n0") [] false;
    promiseFrom "n2" (mkPN 2 "n0") PN.zero [];
    promiseFrom "n0" (mkPN 2 "n0") PN.zero [];
    acceptedFrom "n2" (mkPN 2 "n0") (bytes_of "A") true;
    acceptedFrom "n0" (mkPN 2 "n0") (bytes_of "A") true ].

Definition retryTransport : Transport := mkTransport retryInbox false [].

Definition retryProposer : Proposer := NewProposer "n0" 2.

(** The same run with one more message in the inbox, which the call
    does not read: a Promise of [n1] that reports the accepted value
    "Z". *)
Definition unreadPromise : event :=
  promiseFrom "n1" (mkPN 2 "n0") (mkPN 1 "a0") (bytes_of "Z").

Definition unreadInbox : list event := retryInbox ++ [unreadPromise].

(** Quorum 2, and a single acceptor [n1] whose Promise and whose
    Accepted are each delivered twice. *)
Definition duplicateInbox : list event :=
  [ promiseFrom "n1" (mkPN 1 "n0") PN.zero [];
    promiseFrom "n1" (mkPN 1 "n0") PN.zero [];
    acceptedFrom "n1" (mkPN 1 "n0") (bytes_of "v") true;
    acceptedFrom "n1" (mkPN 1 "n0") (bytes_of "v") true ].

Definition duplicateTransport : Transport :=
  mkTransport duplicateInbox false [].

(** The acceptor ids the messages of an inbox come from. *)
Definition senders (events : list event) : list string :=
  omap (fun ev => match ev with
                  | Deliver m => Some (GetFrom m)
                  | Fail _ => None
                  end) events.

(** A proposer in round 1 with value "v", and an acceptor that has
    promised (10, n9) and so rejects round 1. *)
Definition roundOne : Proposer :=
  beginAttempt
    (mkProposer "n0" 0 PN.zero (bytes_of "v") (bytes_of "v") [] 2).

Definition busyAcceptor : Acceptor.Acceptor :=
  Acceptor.NewAcceptor "n2"
    (Acceptor.mkDurable (mkPN 10 "n9") PN.zero []).



(** What [busyAcceptor] answers to the Prepare of [roundOne]. *)
Definition busyPromise : Promise :=
  snd (Acceptor.HandlePrepare busyAcceptor
         (mkPrepare (currentProposal roundOne) (id roundOne))).



(** A heap with the caller's buffer "A" at address 0. *)
Definition callerHeap : gmap nat (list Byte.byte) :=
  {[ 0%nat := bytes_of "A" ]}.

(** Quorum 2: [n1] and [n2] promise round 1 without a prior accept, and
    both accept; a stray Learn is left in the inbox. *)
Definition quorumPromises : list Promise :=
  [ mkPromise (mkPN 1 "n0") PN.zero [] "n1" true;
    mkPromise (mkPN 1 "n0") PN.zero [] "n2" true ].

Definition quorumAccepteds : list Accepted :=
  [ mkAccepted (mkPN 1 "n0") (bytes_of "v") "n1" true;
    mkAccepted (mkPN 1 "n0") (bytes_of "v") "n2" true ].

Definition strayLearn : event :=
  Deliver (ByValue (PLearn (mkLearn (mkPN 1 "n0") (bytes_of "v") "n0"))).

Definition quorumTransport : Transport :=
  mkTransport
    (map (fun pr => Deliver (ByValue (PPromise pr))) quorumPromises
     ++ map (fun ac => Deliver (ByValue (PAccepted ac))) quorumAccepteds
     ++ [strayLearn])
    false [].

End Scenario.

(** ** What the proposer reads and writes *)

Module Traffic.
Import Transport Proposer.

(** What the first loop of [runPhase1] acts on: an error of [Receive],
    and a [Promise] value for the current proposal.  Everything else
    fails the type assertion [msg.(Promise)] or the test
    [promise.ProposalNumber.Equal(p.currentProposal)] and is skipped. *)
Definition relevantToPhase1 (current : ProposalNumber) (ev : event) : bool :=
  match ev with
  | Fail _ => true
  | Deliver (ByValue (PPromise pr)) =>
      PN.Equal (Promise_ProposalNumber pr) current
  | Deliver _ => false
  end.

(** The same for the loop of [runPhase2] and [Accepted] values. *)
Definition relevantToPhase2 (current : ProposalNumber) (ev : event) : bool :=
  match ev with
  | Fail _ => true
  | Deliver (ByValue (PAccepted ac)) =>
      PN.Equal (Accepted_ProposalNumber ac) current
  | Deliver _ => false
  end.

(** [v] is the accepted value that some Promise of ok=true in the inbox
    reports together with an accepted proposal that is not zero. *)
Definition offered (events : list event) (v : bytes) : Prop :=
  exists pr,
    In (Deliver (ByValue (PPromise pr))) events /\
    Promise_OK pr = true /\
    PN.IsZero (Promise_AcceptedProposal pr) = false /\
    Promise_AcceptedValue pr = v.

(** A Promise of ok=false for [current] is in the inbox. *)
Definition rejectedBy (events : list event) (current : ProposalNumber)
    (pr : Promise) : Prop :=
  In (Deliver (ByValue (PPromise pr))) events /\
  PN.Equal (Promise_ProposalNumber pr) current = true /\
  Promise_OK pr = false.

(** A [Prepare], [Accept] or [Learn] value whose [From] and whose
    proposal number name the proposer [id]. *)
Definition sentBy (id : string) (m : Message) : bool :=
  match m with
  | ByValue (PPrepare x) =>
      String.eqb (Prepare_From x) id
      && String.eqb (ProposerID (Prepare_ProposalNumber x)) id
  | ByValue (PAccept x) =>
      String.eqb (Accept_From x) id
      && String.eqb (ProposerID (Accept_ProposalNumber x)) id
  | ByValue (PLearn x) =>
      String.eqb (Learn_From x) id
      && String.eqb (ProposerID (Learn_ProposalNumber x)) id
  | _ => false
  end.

(** Nothing but deliveries: no call of [Receive] fails. *)
Definition deliveries (events : list event) : bool :=
  forallb (fun ev => match ev with Deliver _ => true | Fail _ => false end)
    events.

(** No Promise value for [current] in the inbox has ok=false. *)
Definition noRejection (current : ProposalNumber) (events : list event)
  : bool :=
  forallb (fun ev =>
             match ev with
             | Deliver (ByValue (PPromise pr)) =>
                 negb (PN.Equal (Promise_ProposalNumber pr) current)
                 || Promise_OK pr
             | _ => true
             end) events.

(** The proposal numbers of the [Prepare] values among messages. *)
Definition preparesOf (msgs : list Message) : list ProposalNumber :=
  omap (fun m => match m with
                 | ByValue (PPrepare x) => Some (Prepare_ProposalNumber x)
                 | _ => None
                 end) msgs.

(** No Promise in the inbox reports a round above [bound]. *)
Definition reportedAtMost (bound : Z) (events : list event) : Prop :=
  Forall (fun ev => match ev with
                    | Deliver (ByValue (PPromise pr)) =>
                        (Round (Promise_AcceptedProposal pr) <= bound)%Z
                    | _ => True
                    end) events.

(** Promises and Accepteds as [Receive] delivers them. *)
Definition asPromises (prs : list Promise) : list event :=
  map (fun pr => Deliver (ByValue (PPromise pr))) prs.

Definition asAccepteds (acs : list Accepted) : list event :=
  map (fun ac => Deliver (ByValue (PAccepted ac))) acs.

(** The transport and the proposer a call of [Propose] leaves behind,
    however it ends. *)
Definition transportAfter (o : outcome) : Transport :=
  match o with
  | Returned _ _ _ t | Waiting _ t | Running _ t => t
  end.

Definition proposerAfter (o : outcome) : Proposer :=
  match o with
  | Returned _ _ p _ | Waiting p _ | Running p _ => p
  end.

End Traffic.

(** ** What the node answers, and its life cycle *)

Module Dispatch.
Import Node.

(** Whom the node owes a reply: the senders of the [Prepare] and
    [Accept] messages, by value or by pointer, in the order in which
    [ReceiveTimeout] returned them. *)
Definition replyTargets (rs : list received) : list string :=
  omap (fun r =>
          match r with
          | Arrived (ByValue (PPrepare m)) | Arrived (ByPointer (PPrepare m)) =>
              Some (Prepare_From m)
          | Arrived (ByValue (PAccept m)) | Arrived (ByPointer (PAccept m)) =>
              Some (Accept_From m)
          | _ => None
          end) rs.

(** The addressees of the calls of [n.transport.Send], in order. *)
Definition sendTargets (es : list effect) : list string :=
  omap (fun e => match e with Send to _ => Some to | Log _ => None end) es.

(** A [Send] carries a [Promise] or an [Accepted], by value. *)
Definition isReply (e : effect) : bool :=
  match e with
  | Send _ (ByValue (PPromise _)) | Send _ (ByValue (PAccepted _)) => true
  | Send _ _ => false
  | Log _ => true
  end.

Definition notTimeout (r : received) : bool :=
  match r with Timeout => false | _ => true end.

(** [NewNode]: the proposer is [NewProposer(id, quorumSize, ...)]; the
    acceptor and the learner are what [NewAcceptor(id, s)] and
    [NewLearner(id, quorumSize)] return, whose code is not part of the
    sources. *)
Definition NewNode {AcceptorT LearnerT : Type} (id : string) (quorumSize : Z)
    (acceptor : AcceptorT) (learner : LearnerT) : @Node AcceptorT LearnerT :=
  mkNode id (Proposer.NewProposer id quorumSize) acceptor learner quorumSize.

End Dispatch.

Module Lifecycle.

(** The fields of [Node] that [Start] and [Stop] use, for calls made one
    after the other.  Channels are numbered in the order of their
    [make]; [closed] lists the channels [close] has been called on;
    [loops] is the counter of the wait group, the number of
    [handleMessages] goroutines that have not returned. *)
Record RunState : Type := mkRunState {
  running : bool;
  stopCh : nat;
  made : nat;
  closed : list nat;
  loops : nat
}.

(** [NewNode] makes the first stop channel and starts nothing. *)
Definition initial : RunState := mkRunState false 0 1 [] 0.

(** [Start]: nothing if the node runs; else a new stop channel and one
    more goroutine.  It returns nil either way. *)
Definition Start (s : RunState) : RunState :=
  if running s then s
  else mkRunState true (made s) (S (made s)) (closed s) (S (loops s)).

(** [Stop]: nothing if the node does not run; else [close(n.stopCh)],
    which panics on a channel that is closed already ([None]), and
    [n.wg.Wait()], which returns once the goroutine has seen the closed
    channel and returned. *)
Definition Stop (s : RunState) : option RunState :=
  if negb (running s) then Some s
  else if existsb (Nat.eqb (stopCh s)) (closed s) then None
  else Some (mkRunState false (stopCh s) (made s) (stopCh s :: closed s)
               (pred (loops s))).

Inductive call : Type := CallStart | CallStop.

(** A sequence of calls; [None] once a call has panicked. *)
Fixpoint run (calls : list call) (s : RunState) : option RunState :=
  match calls with
  | [] => Some s
  | CallStart :: calls' => run calls' (Start s)
  | CallStop :: calls' =>
      match Stop s with
      | Some s' => run calls' s'
      | None => None
      end
  end.

(** What holds between calls: a goroutine runs exactly when [running]
    is set, the current channel has been made, channels that have been
    closed were made, and the current channel is open while the node
    runs. *)
Definition consistent (s : RunState) : Prop :=
  loops s = (if running s then 1 else 0)%nat /\
  stopCh s < made s /\
  Forall (fun c => c < made s) (closed s) /\
  (running s = true -> ~ In (stopCh s) (closed s)).

End Lifecycle.

(** * Properties *)

(** ** Machine integers *)

Lemma wrap_in_range z : Int64.in_range (Int64.wrap z).
Proof.
  unfold Int64.in_range, Int64.wrap, Int64.min_int, Int64.max_int.
  pose proof (Z.mod_pos_bound (z + 2 ^ 63) (2 ^ 64) ltac:(lia)). lia.
Qed.

Lemma wrap_id z : Int64.in_range z -> Int64.wrap z = z.
Proof.
  unfold Int64.in_range, Int64.wrap, Int64.min_int, Int64.max_int.
  intros Hz. rewrite Z.mod_small by lia. lia.
Qed.

Lemma incr_below_max x :
  (Int64.min_int <= x < Int64.max_int)%Z -> Int64.incr x = (x + 1)%Z.
Proof.
  intros Hx. unfold Int64.incr. apply wrap_id. unfold Int64.in_range. lia.
Qed.

Lemma incr_at_max : Int64.incr Int64.max_int = Int64.min_int.
Proof. reflexivity. Qed.

(** ** The order on proposal numbers *)

Lemma compare_eq_iff a b : PN.compare a b = Eq <-> a = b.
Proof.
  destruct a as [ra ia], b as [rb ib]. unfold PN.compare. simpl.
  destruct (Z.compare_spec ra rb) as [E | L | G].
  - subst rb. split; intros H.
    + apply (proj1 (String_as_OT.cmp_eq ia ib)) in H. by subst.
    + apply (proj2 (String_as_OT.cmp_eq ia ib)). congruence.
  - split; [discriminate | intros [= -> _]; lia].
  - split; [discriminate | intros [= -> _]; lia].
Qed.

Lemma compare_refl a : PN.compare a a = Eq.
Proof. by apply compare_eq_iff. Qed.

Lemma compare_antisym a b : PN.compare b a = CompOpp (PN.compare a b).
Proof.
  unfold PN.compare. rewrite (Z.compare_antisym (Round a) (Round b)).
  destruct (Round a ?= Round b)%Z; simpl; try reflexivity.
  apply String.compare_antisym.
Qed.

Lemma string_lt_trans s1 s2 s3 :
  String.compare s1 s2 = Lt -> String.compare s2 s3 = Lt ->
  String.compare s1 s3 = Lt.
Proof.
  intros H12 H23.
  apply String_as_OT.cmp_lt. apply String_as_OT.cmp_lt in H12, H23.
  eapply String_as_OT.lt_trans; eassumption.
Qed.

Lemma compare_lt_trans a b c :
  PN.compare a b = Lt -> PN.compare b c = Lt -> PN.compare a c = Lt.
Proof.
  unfold PN.compare.
  destruct (Z.compare_spec (Round a) (Round b)) as [Eab | Lab | Gab];
    destruct (Z.compare_spec (Round b) (Round c)) as [Ebc | Lbc | Gbc];
    intros H1 H2; try discriminate.
  - replace (Round a ?= Round c)%Z with Eq
      by (symmetry; apply Z.compare_eq_iff; lia).
    eapply string_lt_trans; eassumption.
  - replace (Round a ?= Round c)%Z with Lt
      by (symmetry; apply Z.compare_lt_iff; lia).
    reflexivity.
  - replace (Round a ?= Round c)%Z with Lt
      by (symmetry; apply Z.compare_lt_iff; lia).
    reflexivity.
  - replace (Round a ?= Round c)%Z with Lt
      by (symmetry; apply Z.compare_lt_iff; lia).
    reflexivity.
Qed.

Lemma Equal_eq a b : PN.Equal a b = true <-> a = b.
Proof.
  unfold PN.Equal. rewrite <- compare_eq_iff.
  destruct (PN.compare a b); split; congruence.
Qed.

Lemma Equal_refl a : PN.Equal a a = true.
Proof. by apply Equal_eq. Qed.

Lemma IsZero_eq a : PN.IsZero a = true <-> a = PN.zero.
Proof. apply Equal_eq. Qed.

Lemma GreaterThan_LessThan a b : PN.GreaterThan a b = PN.LessThan b a.
Proof.
  unfold PN.GreaterThan, PN.LessThan. rewrite (compare_antisym a b).
  destruct (PN.compare a b); reflexivity.
Qed.

Lemma LessThan_irrefl a : PN.LessThan a a = false.
Proof. unfold PN.LessThan. by rewrite compare_refl. Qed.

Lemma LessThan_trans a b c :
  PN.LessThan a b = true -> PN.LessThan b c = true -> PN.LessThan a c = true.
Proof.
  unfold PN.LessThan. intros H1 H2.
  destruct (PN.compare a b) eqn:Eab; try discriminate.
  destruct (PN.compare b c) eqn:Ebc; try discriminate.
  by rewrite (compare_lt_trans a b c).
Qed.

Lemma LessThan_Round a b : (Round a < Round b)%Z -> PN.LessThan a b = true.
Proof.
  intros H. unfold PN.LessThan, PN.compare.
  apply Z.compare_lt_iff in H. by rewrite H.
Qed.

Lemma LessThan_Round_le a b : PN.LessThan a b = true -> (Round a <= Round b)%Z.
Proof.
  unfold PN.LessThan, PN.compare.
  destruct (Z.compare_spec (Round a) (Round b)); intros Hlt;
    [lia | lia | discriminate].
Qed.

Lemma PN_le_refl a : PN.le a a.
Proof. apply LessThan_irrefl. Qed.

Lemma PN_le_trans a b c : PN.le a b -> PN.le b c -> PN.le a c.
Proof.
  unfold PN.le, PN.LessThan. intros Hab Hbc.
  rewrite (compare_antisym a b) in Hab.
  rewrite (compare_antisym b c) in Hbc.
  rewrite (compare_antisym a c).
  destruct (PN.compare a b) eqn:Eab; simpl in Hab; try discriminate;
    destruct (PN.compare b c) eqn:Ebc; simpl in Hbc; try discriminate.
  - apply compare_eq_iff in Eab, Ebc. subst. by rewrite compare_refl.
  - apply compare_eq_iff in Eab. subst. by rewrite Ebc.
  - apply compare_eq_iff in Ebc. subst. by rewrite Eab.
  - by rewrite (compare_lt_trans a b c).
Qed.

Lemma PN_lt_le a b : PN.LessThan a b = true -> PN.le a b.
Proof.
  unfold PN.le, PN.LessThan. rewrite (compare_antisym a b).
  destruct (PN.compare a b); simpl; congruence.
Qed.

(** ** In-memory storage *)

Section StorageFacts.
Import Storage.

Implicit Types (h : heap) (m : MemoryStorage) (s : slice).

Lemma fresh_not_allocated h : h !! fresh (dom h) = None.
Proof. apply not_elem_of_dom. apply is_fresh. Qed.

(** A fresh array of the length of [src], filled by [copy], holds the
    bytes of [src]; every other array is as it was. *)
Lemma clone_lookup h s :
  allocated h s ->
  let h' := copy (make h (len h s)).1 (make h (len h s)).2 s in
  (make h (len h s)).2 = Some (fresh (dom h)) /\
  h' !! fresh (dom h) = Some (contents h s) /\
  forall l, l <> fresh (dom h) -> h' !! l = h !! l.
Proof.
  intros Hs. unfold make. cbn [fst snd]. unfold copy.
  rewrite lookup_insert_eq.
  set (l0 := fresh (dom h)).
  assert (contents (<[l0:=replicate (len h s) Byte.x00]> h) s
          = contents h s) as Hc.
  { destruct s as [l|]; [|done]. cbn [contents allocated] in *.
    rewrite lookup_insert_ne; [done|].
    intros <-. by apply is_fresh in Hs. }
  rewrite Hc. split; [done|]. split.
  - rewrite lookup_insert_eq. f_equal.
    rewrite length_replicate. unfold len.
    rewrite firstn_all. rewrite drop_ge by (rewrite length_replicate; lia).
    by rewrite app_nil_r.
  - intros l Hl. by rewrite !lookup_insert_ne.
Qed.

End StorageFacts.

Section StorageProperties.
Import Storage.

Implicit Types (h : heap) (m : MemoryStorage) (s : slice).

Lemma SaveAccepted_keeps h m p v :
  allocated h v ->
  keeps (SaveAccepted h m p v).1.1 (SaveAccepted h m p v).1.2 [v] p
    (contents h v).
Proof.
  intros Hv. destruct (clone_lookup h v Hv) as (Hbuf & Hnew & Hold).
  unfold SaveAccepted.
  destruct (make h (len h v)) as [h1 buf] eqn:Hmk. cbn [fst snd] in *.
  subst buf. split; [done|].
  exists (fresh (dom h)). split; [done|]. split; [done|].
  constructor; [|constructor].
  destruct v as [l|]; [|done]. cbn [allocated] in Hv.
  intros [= ->]. by apply is_fresh in Hv.
Qed.

Lemma write_keeps h m held p c s i b :
  keeps h m held p c -> s ∈ held -> keeps (write h s i b) m held p c.
Proof.
  intros (Hp & l & Hl & Hc & Hheld) Hs. split; [done|].
  exists l. split; [done|]. split; [|done].
  rewrite Forall_forall in Hheld. specialize (Hheld s Hs).
  unfold write. destruct s as [l'|]; [|done].
  destruct (h !! l') eqn:E; [|done].
  rewrite lookup_insert_ne; [done|]. congruence.
Qed.

Lemma LoadAccepted_keeps h m held p c :
  keeps h m held p c ->
  let '(h', (p', r, _)) := LoadAccepted h m in
  p' = p /\ contents h' r = c /\ keeps h' m (held ++ [r]) p c.
Proof.
  intros (Hp & l & Hl & Hc & Hheld).
  assert (allocated h (Some l)) as Hal
    by (cbn [allocated]; apply elem_of_dom; eauto).
  assert (l <> fresh (dom h)) as Hne
    by (intros ->; by apply is_fresh in Hal).
  destruct (clone_lookup h (Some l) Hal) as (Hbuf & Hnew & Hold).
  unfold LoadAccepted. rewrite Hl.
  destruct (make h (len h (Some l))) as [h1 buf] eqn:Hmk.
  cbn [fst snd] in *. subst buf.
  assert (contents h (Some l) = c) as Hcl by (cbn [contents]; by rewrite Hc).
  rewrite Hcl in Hnew.
  split; [done|]. split; [cbn [contents]; by rewrite Hnew|].
  split; [done|]. exists l. split; [done|]. split.
  - by rewrite Hold.
  - apply Forall_app. split; [done|]. constructor; [|constructor].
    congruence.
Qed.

Lemma runClient_keeps ops : forall h m held p c,
  keeps h m held p c ->
  Forall (fun r => r = (p, c)) (runClient ops h held m).
Proof.
  induction ops as [|op ops IH]; intros h m held p c Hk; cbn [runClient].
  - constructor.
  - destruct op as [which i b|].
    + apply IH. destruct (held !! which) as [s|] eqn:E; cbn [default].
      * apply write_keeps; [done|]. by eapply list_elem_of_lookup_2.
      * done.
    + pose proof (LoadAccepted_keeps h m held p c Hk) as HL.
      destruct (LoadAccepted h m) as [h' [[p' r] e]].
      destruct HL as (-> & <- & Hk'). constructor; [done|].
      by apply IH.
Qed.

(** C8. In-memory storage round trips: [LoadPromised] after
    [SavePromised p] returns [p]; [LoadAccepted] after
    [SaveAccepted p v] returns [p] and a slice with the bytes [v] had
    when it was saved; and whatever the caller then writes into the
    buffer it passed, or into any slice a [LoadAccepted] returned, every
    later [LoadAccepted] still returns [p] and those bytes. *)
Theorem storage_round_trip h m p v :
  allocated h v ->
  (LoadPromised (SavePromised m p).1).1 = p /\
  (let '(h1, m1, _) := SaveAccepted h m p v in
   (let '(h2, (p', r, _)) := LoadAccepted h1 m1 in
    p' = p /\ contents h2 r = contents h v) /\
   forall ops : list clientOp,
     Forall (fun r => r = (p, contents h v)) (runClient ops h1 [v] m1)).
Proof.
  intros Hv. split; [done|].
  pose proof (SaveAccepted_keeps h m p v Hv) as Hk.
  destruct (SaveAccepted h m p v) as [[h1 m1] e]. simpl in Hk. split.
  - pose proof (LoadAccepted_keeps h1 m1 [v] p _ Hk) as HL.
    destruct (LoadAccepted h1 m1) as [h2 [[p' r] e']]. tauto.
  - intros ops. by apply runClient_keeps.
Qed.

(** C10. [Close] erases the store, as [Reset] does: afterwards
    [LoadPromised] returns the zero proposal number and [LoadAccepted]
    returns the zero proposal number with an empty value, whatever was
    saved before. *)
Theorem close_erases h m :
  let m' := (Close m).1 in
  m' = Reset m /\
  (LoadPromised m').1 = PN.zero /\
  (let '(h', (p, r, _)) := LoadAccepted h m' in
   p = PN.zero /\ contents h' r = []).
Proof.
  simpl. split; [done|]. split; [done|]. split; [done|].
  rewrite (lookup_insert_eq h). by rewrite lookup_insert_eq.
Qed.

Lemma storage_round_trip_witness :
  allocated Scenario.callerHeap (Some 0%nat) /\
  Forall (fun r => r = (mkPN 5 "X", bytes_of "A"))
    (runClient [Mutate 0 0 Byte.x5a; Load; Mutate 1 0 Byte.x51; Load]
       (SaveAccepted Scenario.callerHeap NewMemoryStorage (mkPN 5 "X")
          (Some 0%nat)).1.1
       [Some 0%nat]
       (SaveAccepted Scenario.callerHeap NewMemoryStorage (mkPN 5 "X")
          (Some 0%nat)).1.2).
Proof.
  assert (allocated Scenario.callerHeap (Some 0%nat)) as Hv
    by (apply (proj2 (elem_of_dom Scenario.callerHeap 0%nat));
        eexists; reflexivity).
  split; [exact Hv|].
  destruct (storage_round_trip Scenario.callerHeap NewMemoryStorage
              (mkPN 5 "X") (Some 0%nat) Hv) as [_ Hsave].
  destruct (SaveAccepted Scenario.callerHeap NewMemoryStorage (mkPN 5 "X")
              (Some 0%nat)) as [[h1 m1] e].
  destruct Hsave as [_ Hops]. apply Hops.
Defined.

End StorageProperties.

(** ** Proposal numbers of one proposer *)

Section RoundFacts.
Import Proposer.
Local Open Scope Z_scope.

Implicit Types (p : Proposer) (ops : list roundOp).

Lemma handleRejection_round p hs :
  highestRound (handleRejection p hs) = Z.max (highestRound p) (Round hs).
Proof.
  unfold handleRejection.
  destruct (Z.gtb_spec (Round hs) (highestRound p)); simpl; lia.
Qed.

Lemma handleRejection_id p hs : id (handleRejection p hs) = id p.
Proof. unfold handleRejection. by destruct (_ >? _). Qed.




Lemma emitted_app ops1 : forall ops2 p,
  emitted (ops1 ++ ops2) p = emitted ops1 p ++ emitted ops2 (after ops1 p).
Proof.
  induction ops1 as [|[|hs] ops1 IH]; intros ops2 p; cbn [emitted after app].
  - done.
  - destruct (generateProposalNumber p) as [p' n]. cbn [fst].
    by rewrite IH.
  - apply IH.
Qed.




End RoundFacts.

Section RoundExamples.
Import Proposer Scenario.
Local Open Scope Z_scope.



End RoundExamples.

(** ** The two phases of the proposer *)

Section PhaseFacts.
Import Transport Proposer.
Local Open Scope Z_scope.

Implicit Types (p : Proposer) (t : Transport) (events : list event).

Lemma Broadcast_inbox t msg : inbox (Broadcast t msg).1 = inbox t.
Proof. unfold Broadcast. by destruct (isClosed t). Qed.

Lemma Broadcast_closing t msg : closing (Broadcast t msg).1 = closing t.
Proof. unfold Broadcast. by destruct (isClosed t). Qed.

(** The first loop of [runPhase1] as the source writes it: test the
    count, call [Receive], dispatch on what it returned. *)
Lemma awaitPromises_Receive p t count :
  awaitPromises (inbox t) (closing t) p count =
  if count <? quorumSize p then
    match Receive t with
    | (None, _) => (p, [], Blocked)
    | (Some (Fail e), t') => (p, inbox t', Err e)
    | (Some (Deliver (ByValue (PPromise pr))), t') =>
        if negb (PN.Equal (Promise_ProposalNumber pr) (currentProposal p))
        then awaitPromises (inbox t') (closing t') p count
        else if negb (Promise_OK pr)
        then (handleRejection p (Promise_AcceptedProposal pr), inbox t',
              Err ErrRejected)
        else awaitPromises (inbox t') (closing t') (appendPromise p pr)
               (count + 1)
    | (Some (Deliver _), t') =>
        awaitPromises (inbox t') (closing t') p count
    end
  else (p, inbox t, Ok).
Proof.
  destruct t as [[|ev events] cl snt]; unfold Receive;
    cbn [inbox closing awaitPromises rest].
  - destruct (count <? quorumSize p); [|done]. by destruct cl.
  - destruct (count <? quorumSize p); [|done].
    by destruct ev as [[[m|pr|m|m|m|m]|pl|from]|e].
Qed.

(** The loop of [runPhase2] in the same form. *)
Lemma awaitAccepted_Receive p t count :
  awaitAccepted (inbox t) (closing t) p count =
  if count <? quorumSize p then
    match Receive t with
    | (None, _) => ([], Blocked)
    | (Some (Fail e), t') => (inbox t', Err e)
    | (Some (Deliver (ByValue (PAccepted ac))), t') =>
        if negb (PN.Equal (Accepted_ProposalNumber ac) (currentProposal p))
        then awaitAccepted (inbox t') (closing t') p count
        else if negb (Accepted_OK ac)
        then (inbox t', Err ErrRejected)
        else awaitAccepted (inbox t') (closing t') p (count + 1)
    | (Some (Deliver _), t') =>
        awaitAccepted (inbox t') (closing t') p count
    end
  else (inbox t, Ok).
Proof.
  destruct t as [[|ev events] cl snt]; unfold Receive;
    cbn [inbox closing awaitAccepted rest].
  - destruct (count <? quorumSize p); [|done]. by destruct cl.
  - destruct (count <? quorumSize p); [|done].
    by destruct ev as [[[m|m|m|m|ac|m]|pl|from]|e].
Qed.

(** When the first loop of [runPhase1] ends with a quorum, it has
    appended to [p.promise] every Promise of ok=true for the current
    proposal among the messages it consumed, and their number is what
    was missing to reach the quorum size. *)
Lemma awaitPromises_ok events closing : forall p count p' events',
  awaitPromises events closing p count = (p', events', Ok) ->
  exists consumed,
    events = consumed ++ events' /\
    p' = mkProposer (id p) (highestRound p) (currentProposal p)
           (originalValue p) (valueToPropose p)
           (promise p ++ grantsFor (currentProposal p) consumed)
           (quorumSize p) /\
    count + Z.of_nat (length (grantsFor (currentProposal p) consumed))
      = Z.max count (quorumSize p).
Proof.
  induction events as [|ev events IH]; intros p count p' events' Hrun.
  - cbn [awaitPromises] in Hrun.
    destruct (Z.ltb_spec count (quorumSize p)) as [Hlt|Hge].
    + destruct closing; discriminate.
    + injection Hrun as <- <-. exists []. cbn.
      rewrite app_nil_r. destruct p; cbn in *. split; [done|].
      split; [done|]. lia.
  - cbn [awaitPromises] in Hrun.
    destruct (Z.ltb_spec count (quorumSize p)) as [Hlt|Hge].
    2:{ injection Hrun as <- <-. exists []. cbn.
        rewrite app_nil_r. destruct p; cbn in *. split; [done|].
        split; [done|]. lia. }
    assert (forall consumed,
      grantsFor (currentProposal p) (ev :: consumed)
      = match ev with
        | Deliver (ByValue (PPromise pr)) =>
            if PN.Equal (Promise_ProposalNumber pr) (currentProposal p)
               && Promise_OK pr
            then pr :: grantsFor (currentProposal p) consumed
            else grantsFor (currentProposal p) consumed
        | _ => grantsFor (currentProposal p) consumed
        end) as Hgrants.
    { intros consumed. unfold grantsFor.
      destruct ev as [[[ | pr | | | | ]| |]|]; try reflexivity.
      cbn. by destruct (_ && _). }
    destruct ev as [[[m|pr|m|m|m|m]|pl|from]|e];
      try discriminate;
      try (apply IH in Hrun as (consumed & -> & -> & Hcount);
           eexists (_ :: consumed); rewrite Hgrants;
           split; [reflexivity|]; split; [reflexivity|]; exact Hcount).
    destruct (PN.Equal (Promise_ProposalNumber pr) (currentProposal p))
      eqn:Eeq; cbn [negb] in Hrun.
    + destruct (Promise_OK pr) eqn:Eok; cbn [negb] in Hrun;
        [|discriminate].
      apply IH in Hrun as (consumed & -> & -> & Hcount).
      eexists (_ :: consumed). rewrite Hgrants. cbn [andb].
      cbn [appendPromise id highestRound currentProposal originalValue
           valueToPropose promise quorumSize] in *.
      split; [reflexivity|]. split.
      * by rewrite <- app_assoc.
      * cbn [length]. lia.
    + apply IH in Hrun as (consumed & -> & -> & Hcount).
      eexists (_ :: consumed). rewrite Hgrants. cbn [andb].
      split; [reflexivity|]. split; [reflexivity|]. exact Hcount.
Qed.

(** The same for the loop of [runPhase2] and the Accepted messages. *)
Lemma awaitAccepted_ok events closing p : forall count events',
  awaitAccepted events closing p count = (events', Ok) ->
  exists consumed,
    events = consumed ++ events' /\
    count + Z.of_nat (length (acceptsFor (currentProposal p) consumed))
      = Z.max count (quorumSize p).
Proof.
  induction events as [|ev events IH]; intros count events' Hrun.
  - cbn [awaitAccepted] in Hrun.
    destruct (Z.ltb_spec count (quorumSize p)) as [Hlt|Hge].
    + destruct closing; discriminate.
    + injection Hrun as <-. exists []. cbn. split; [done|]. lia.
  - cbn [awaitAccepted] in Hrun.
    destruct (Z.ltb_spec count (quorumSize p)) as [Hlt|Hge].
    2:{ injection Hrun as <-. exists []. cbn. split; [done|]. lia. }
    assert (forall consumed,
      acceptsFor (currentProposal p) (ev :: consumed)
      = match ev with
        | Deliver (ByValue (PAccepted ac)) =>
            if PN.Equal (Accepted_ProposalNumber ac) (currentProposal p)
               && Accepted_OK ac
            then ac :: acceptsFor (currentProposal p) consumed
            else acceptsFor (currentProposal p) consumed
        | _ => acceptsFor (currentProposal p) consumed
        end) as Haccepts.
    { intros consumed. unfold acceptsFor.
      destruct ev as [[[ | | | | ac | ]| |]|]; try reflexivity.
      cbn. by destruct (_ && _). }
    destruct ev as [[[m|m|m|m|ac|m]|pl|from]|e];
      try discriminate;
      try (apply IH in Hrun as (consumed & -> & Hcount);
           eexists (_ :: consumed); rewrite Haccepts;
           split; [reflexivity|]; exact Hcount).
    destruct (PN.Equal (Accepted_ProposalNumber ac) (currentProposal p))
      eqn:Eeq; cbn [negb] in Hrun.
    + destruct (Accepted_OK ac) eqn:Eok; cbn [negb] in Hrun;
        [|discriminate].
      apply IH in Hrun as (consumed & -> & Hcount).
      eexists (_ :: consumed). rewrite Haccepts. cbn [andb].
      split; [reflexivity|]. cbn [length]. lia.
    + apply IH in Hrun as (consumed & -> & Hcount).
      eexists (_ :: consumed). rewrite Haccepts. cbn [andb].
      split; [reflexivity|]. exact Hcount.
Qed.

End PhaseFacts.

Section AdoptionFacts.
Import Transport Proposer.
Local Open Scope Z_scope.

Lemma PN_le_antisym a b : PN.le a b -> PN.le b a -> a = b.
Proof.
  unfold PN.le, PN.LessThan. intros Hba Hab.
  apply compare_eq_iff. rewrite (compare_antisym a b) in Hba.
  destruct (PN.compare a b); simpl in *; congruence.
Qed.

Lemma PN_zero_le a : 0 <= Round a -> PN.le PN.zero a.
Proof.
  intros Hr. unfold PN.le, PN.LessThan, PN.compare. cbn [Round PN.zero].
  destruct (Z.compare_spec (Round a) 0); [|lia|done].
  cbn [ProposerID]. by destruct (ProposerID a).
Qed.

(** The fold keeps the greatest accepted proposal seen so far: the
    result is not below the start, not below any accepted proposal
    that is not zero, and is either the start or what one of the
    promises reports. *)
Lemma adopt_fold promises : forall hi v,
  let r := fold_left adoptStep promises (hi, v) in
  PN.le hi r.1 /\
  Forall (fun pr => PN.IsZero (Promise_AcceptedProposal pr) = false ->
                    PN.le (Promise_AcceptedProposal pr) r.1) promises /\
  (r = (hi, v) \/
   exists pr, pr ∈ promises /\
     PN.IsZero (Promise_AcceptedProposal pr) = false /\
     r = (Promise_AcceptedProposal pr, Promise_AcceptedValue pr)).
Proof.
  induction promises as [|pr promises IH]; intros hi v; cbn [fold_left].
  - split; [apply PN_le_refl|]. split; [constructor|]. by left.
  - destruct (PN.IsZero (Promise_AcceptedProposal pr)) eqn:Ez.
    + assert (adoptStep (hi, v) pr = (hi, v)) as ->
        by (unfold adoptStep; by rewrite Ez).
      destruct (IH hi v) as (Hle & Hall & Hr).
      split; [done|]. split; [constructor; [congruence|exact Hall]|].
      destruct Hr as [Hr | (pr' & Hin & Hnz & Hr)]; [by left|].
      right. exists pr'. split; [by apply list_elem_of_further|done].
    + destruct (PN.LessThan hi (Promise_AcceptedProposal pr)) eqn:Elt.
      * assert (adoptStep (hi, v) pr
                = (Promise_AcceptedProposal pr, Promise_AcceptedValue pr))
          as -> by (unfold adoptStep; cbn [fst];
                    by rewrite Ez, GreaterThan_LessThan, Elt).
        destruct (IH (Promise_AcceptedProposal pr)
                    (Promise_AcceptedValue pr)) as (Hle & Hall & Hr).
        split; [eapply PN_le_trans; [by apply PN_lt_le|exact Hle]|].
        split; [constructor; [intros _; exact Hle|exact Hall]|].
        right. destruct Hr as [Hr | (pr' & Hin & Hnz & Hr)].
        -- exists pr. split; [by apply list_elem_of_here|done].
        -- exists pr'. split; [by apply list_elem_of_further|done].
      * assert (adoptStep (hi, v) pr = (hi, v)) as ->
          by (unfold adoptStep; cbn [fst];
              by rewrite Ez, GreaterThan_LessThan, Elt).
        destruct (IH hi v) as (Hle & Hall & Hr).
        split; [done|].
        split; [constructor; [|exact Hall]|].
        -- intros _. eapply PN_le_trans; [exact Elt|exact Hle].
        -- destruct Hr as [Hr | (pr' & Hin & Hnz & Hr)]; [by left|].
           right. exists pr'. split; [by apply list_elem_of_further|done].
Qed.

(** Safety rule S1 for one pass of the loop. If no promise reports an
    accepted proposal the value is left as it is; if one does (rounds
    are not negative), the value becomes the accepted value of a
    promise whose accepted proposal is the greatest of all. *)
Lemma highestAccepted_spec promises v :
  Forall (fun pr => 0 <= Round (Promise_AcceptedProposal pr)) promises ->
  (Forall (fun pr => PN.IsZero (Promise_AcceptedProposal pr) = true) promises
   -> highestAccepted promises v = (PN.zero, v)) /\
  (Exists (fun pr => PN.IsZero (Promise_AcceptedProposal pr) = false) promises
   -> exists pr, pr ∈ promises /\
        PN.IsZero (Promise_AcceptedProposal pr) = false /\
        highestAccepted promises v
          = (Promise_AcceptedProposal pr, Promise_AcceptedValue pr) /\
        Forall (fun pr' => PN.le (Promise_AcceptedProposal pr')
                             (Promise_AcceptedProposal pr)) promises).
Proof.
  intros Hpos. unfold highestAccepted.
  destruct (adopt_fold promises PN.zero v) as (Hle & Hall & Hr).
  split.
  - intros Hzero. destruct Hr as [Hr | (pr & Hin & Hnz & _)]; [done|].
    rewrite Forall_forall in Hzero. specialize (Hzero pr Hin). congruence.
  - intros Hex. apply Exists_exists in Hex as (pr0 & Hin0 & Hnz0).
    destruct Hr as [Hr | (pr & Hin & Hnz & Hr)].
    + exfalso. rewrite Hr in Hall. cbn [fst] in Hall.
      rewrite Forall_forall in Hall, Hpos.
      specialize (Hall pr0 Hin0 Hnz0).
      assert (Promise_AcceptedProposal pr0 = PN.zero) as Heq
        by (apply PN_le_antisym; [done | by apply PN_zero_le, Hpos]).
      apply IsZero_eq in Heq. congruence.
    + exists pr. split; [done|]. split; [done|]. split; [done|].
      rewrite Hr in Hall, Hle. cbn [fst] in Hall, Hle.
      rewrite Forall_forall in Hall, Hpos. apply Forall_forall.
      intros pr' Hin'.
      destruct (PN.IsZero (Promise_AcceptedProposal pr')) eqn:Ez.
      * apply IsZero_eq in Ez. by rewrite Ez.
      * by apply Hall.
Qed.

(** What Phase 1 hands to Phase 2: the value chosen by the loop above
    from the promises gathered and the value the attempt started with,
    and Phase 2 broadcasts that value in its Accept. *)
Lemma runPhase1_value p t p1 t1 :
  runPhase1 p t = (p1, t1, Ok) ->
  valueToPropose p1 = (highestAccepted (promise p1) (valueToPropose p)).2 /\
  originalValue p1 = originalValue p /\
  currentProposal p1 = currentProposal p.
Proof.
  unfold runPhase1. rewrite Broadcast_inbox, Broadcast_closing.
  destruct (awaitPromises (inbox t) (closing t) p 0)
    as [[p' events'] st] eqn:Eloop.
  destruct st; try discriminate. intros [= <- <-].
  apply awaitPromises_ok in Eloop as (consumed & _ & -> & _).
  by cbn.
Qed.

End AdoptionFacts.

Section PhaseProperties.
Import Transport Proposer Scenario.
Local Open Scope Z_scope.

Implicit Types (p : Proposer) (t : Transport) (events : list event).

(** C2, as amended. The proposer counts messages, not acceptors: when
    Phase 1 ends with a quorum, the promises it holds are all the
    Promises of ok=true for the current proposal that it received, in
    the order of arrival and whatever their [From], and there are
    [quorumSize] of them; when Phase 2 ends with a quorum it has
    received [quorumSize] Accepted messages of ok=true for the current
    proposal. *)
Theorem quorum_counts_messages p t :
  promise p = [] ->
  (forall p1 t1, runPhase1 p t = (p1, t1, Ok) ->
     exists consumed,
       inbox t = consumed ++ inbox t1 /\
       promise p1 = grantsFor (currentProposal p) consumed /\
       Z.of_nat (length (promise p1)) = Z.max 0 (quorumSize p)) /\
  (forall p2 t2, runPhase2 p t = (p2, t2, Ok) ->
     exists consumed,
       inbox t = consumed ++ inbox t2 /\
       Z.of_nat (length (acceptsFor (currentProposal p) consumed))
         = Z.max 0 (quorumSize p)).
Proof.
  intros Hnil. split.
  - intros p1 t1 Hrun. unfold runPhase1 in Hrun.
    rewrite Broadcast_inbox, Broadcast_closing in Hrun.
    destruct (awaitPromises (inbox t) (closing t) p 0)
      as [[p' events'] st] eqn:Eloop.
    destruct st; try discriminate. injection Hrun as <- <-.
    apply awaitPromises_ok in Eloop as (consumed & Hin & -> & Hcount).
    exists consumed. cbn. rewrite Hnil in *. cbn in *.
    split; [done|]. split; [done|]. lia.
  - intros p2 t2 Hrun. unfold runPhase2 in Hrun.
    rewrite Broadcast_inbox, Broadcast_closing in Hrun.
    destruct (awaitAccepted (inbox t) (closing t) p 0)
      as [events' st] eqn:Eloop.
    destruct st; try discriminate. injection Hrun as <- <-.
    apply awaitAccepted_ok in Eloop as (consumed & Hin & Hcount).
    exists consumed. rewrite Broadcast_inbox. cbn.
    split; [done|]. lia.
Qed.

(** C2, counterexample. With a quorum size of 2, the Promise of the
    single acceptor [n1] delivered twice completes Phase 1, and its
    Accepted delivered twice completes Phase 2: [Propose] returns after
    hearing from one acceptor. *)
Lemma duplicates_reach_quorum_counterexample :
  distinctIds (senders duplicateInbox) = ["n1"%string] /\
  quorumSize (NewProposer "n0" 2) = 2 /\
  exists p' t',
    Propose 1 (NewProposer "n0" 2) duplicateTransport (bytes_of "v")
      = Returned (bytes_of "v") None p' t' /\
    map Promise_From (promise p') = ["n1"%string; "n1"%string] /\
    inbox t' = [].
Proof.
  split; [reflexivity|]. split; [reflexivity|].
  eexists _, _. split; [vm_compute; reflexivity|].
  split; reflexivity.
Qed.

Lemma quorum_counts_messages_witness :
  promise (beginAttempt (NewProposer "n0" 2)) = [] /\
  exists consumed,
    inbox duplicateTransport = consumed ++ skipn 2 duplicateInbox /\
    Z.of_nat
      (length
         (grantsFor (currentProposal (beginAttempt (NewProposer "n0" 2)))
            consumed)) = 2.
Proof.
  assert (promise (beginAttempt (NewProposer "n0" 2)) = []) as Hnil
    by reflexivity.
  split; [exact Hnil|].
  destruct (quorum_counts_messages (beginAttempt (NewProposer "n0" 2))
              duplicateTransport Hnil) as [H1 _].
  destruct (H1 _ _ eq_refl) as (consumed & Hin & Hpr & Hlen).
  exists consumed. split; [exact Hin|].
  rewrite <- Hpr. exact Hlen.
Defined.

(** [runPhase2] does not touch the proposer. *)
Lemma runPhase2_proposer p t : (runPhase2 p t).1.1 = p.
Proof.
  unfold runPhase2.
  destruct (awaitAccepted _ _ _ _) as [events' st]. by destruct st.
Qed.






End PhaseProperties.

(** ** The loop of [Propose] *)

Section ProposeFacts.
Import Transport Proposer Scenario.
Local Open Scope Z_scope.

Implicit Types (p : Proposer) (t : Transport).

Lemma beginAttempt_quorumSize p : quorumSize (beginAttempt p) = quorumSize p.
Proof. reflexivity. Qed.

Lemma beginAttempt_promise p : promise (beginAttempt p) = [].
Proof. reflexivity. Qed.

Lemma beginAttempt_values p :
  valueToPropose (beginAttempt p) = valueToPropose p /\
  originalValue (beginAttempt p) = originalValue p.
Proof. split; reflexivity. Qed.

(** On a closed transport Phase 1 fails at once with the error of
    [Receive], and the proposer is as it was. *)
Lemma runPhase1_closed p :
  0 < quorumSize p -> runPhase1 p closed = (p, closed, Err ErrClosed).
Proof.
  intros Hq. unfold runPhase1. cbn.
  by destruct (Z.ltb_spec 0 (quorumSize p)); [|lia].
Qed.

(** [Propose] treats that error like a rejection, so the loop goes
    round for as long as it is run. *)
Lemma proposeLoop_closed fuel : forall p,
  0 < quorumSize p ->
  exists p', proposeLoop fuel p closed = Running p' closed /\
             quorumSize p' = quorumSize p.
Proof.
  induction fuel as [|fuel IH]; intros p Hq; cbn [proposeLoop].
  - by exists p.
  - rewrite runPhase1_closed by (by rewrite beginAttempt_quorumSize).
    destruct (IH (beginAttempt p)) as (p' & Hrun & Hq');
      [by rewrite beginAttempt_quorumSize|].
    exists p'. by rewrite Hrun, Hq', beginAttempt_quorumSize.
Qed.

(** Whenever [Propose] returns, the error it returns is nil. *)
Lemma proposeLoop_error_nil fuel : forall p t value err p' t',
  proposeLoop fuel p t = Returned value err p' t' -> err = None.
Proof.
  induction fuel as [|fuel IH]; intros p t value err p' t' Hrun;
    cbn [proposeLoop] in Hrun; [discriminate|].
  destruct (runPhase1 (beginAttempt p) t) as [[p1 t1] [|e|]];
    [|by eapply IH|discriminate].
  destruct (runPhase2 p1 t1) as [[p2 t2] [|e|]];
    [|by eapply IH|discriminate].
  by injection Hrun as _ <- _ _.
Qed.

(** C3, the code at a closed transport. Every [Receive] and every
    [Broadcast] of the transport returns an error; however long
    [Propose] is run it has not returned, and no run of [Propose]
    returns an error. *)
Theorem propose_spins_on_closed_transport :
  Receive closed = (Some (Fail ErrClosed), closed) /\
  (forall msg, Broadcast closed msg = (closed, Some ErrClosed)) /\
  (forall fuel, exists p',
     Propose fuel (NewProposer "n0" 3) closed (bytes_of "hello")
       = Running p' closed) /\
  (forall fuel p t value v err p' t',
     Propose fuel p t value = Returned v err p' t' -> err = None).
Proof.
  split; [reflexivity|]. split; [reflexivity|]. split.
  - intros fuel. unfold Propose.
    destruct (proposeLoop_closed fuel
                (mkProposer "n0" 0 PN.zero (bytes_of "hello")
                   (bytes_of "hello") [] 3) ltac:(reflexivity))
      as (p' & Hrun & _).
    by exists p'.
  - intros fuel p t value v err p' t' Hrun.
    by eapply proposeLoop_error_nil.
Qed.

(** C4, the code on a retry. In [retryInbox] the first attempt adopts
    "A" in Phase 1 and is rejected in Phase 2.  The second attempt
    starts with no promises, and with "A", not the client's "B", as the
    value to propose. *)
Theorem retry_keeps_adopted_value :
  exists p1 t1,
    Propose 1 retryProposer retryTransport (bytes_of "B") = Running p1 t1 /\
    promise (beginAttempt p1) = [] /\
    originalValue (beginAttempt p1) = bytes_of "B" /\
    valueToPropose (beginAttempt p1) = bytes_of "A" /\
    valueToPropose (beginAttempt p1) <> originalValue (beginAttempt p1).
Proof.
  eexists _, _. split; [vm_compute; reflexivity|].
  split; [reflexivity|]. split; [reflexivity|]. split; [reflexivity|].
  vm_compute. discriminate.
Qed.

(** C1, the code on a retry. In [retryInbox] none of the promises
    gathered in round 2 reports an accepted proposal, yet the Accept
    and the Learn of round 2 carry "A", the value adopted in round 1,
    and [Propose] returns "A"; the client's value is "B". *)
Theorem adopted_value_outlives_round :
  exists p' t',
    Propose 2 retryProposer retryTransport (bytes_of "B")
      = Returned (bytes_of "A") None p' t' /\
    currentProposal p' = mkPN 2 "n0" /\
    map Promise_From (promise p') = ["n2"%string; "n0"%string] /\
    Forall (fun pr => PN.IsZero (Promise_AcceptedProposal pr) = true)
      (promise p') /\
    originalValue p' = bytes_of "B" /\
    sent t' =
      [ ByValue (PPrepare (mkPrepare (mkPN 1 "n0") "n0"));
        ByValue (PAccept (mkAccept (mkPN 1 "n0") (bytes_of "A") "n0"));
        ByValue (PPrepare (mkPrepare (mkPN 2 "n0") "n0"));
        ByValue (PAccept (mkAccept (mkPN 2 "n0") (bytes_of "A") "n0"));
        ByValue (PLearn (mkLearn (mkPN 2 "n0") (bytes_of "A") "n0")) ].
Proof.
  eexists _, _. split; [vm_compute; reflexivity|].
  split; [reflexivity|]. split; [reflexivity|].
  split; [repeat constructor|]. split; reflexivity.
Qed.

End ProposeFacts.

(** ** Acceptor *)

Section AcceptorProperties.
Import Acceptor.


End AcceptorProperties.

(** ** Node dispatch *)

Section NodeProperties.
Import Node.

Context {AcceptorT LearnerT : Type}.
Context (HandlePrepare : AcceptorT -> Prepare -> AcceptorT * Promise).
Context (HandleAccept : AcceptorT -> Accept -> AcceptorT * Accepted).
Context (HandleAccepted : LearnerT -> Accepted -> LearnerT).
Context (HandleLearn : LearnerT -> Learn -> LearnerT).

(** C6, the code at a Promise. The type switch of [routeMessage] has
    no case for [Promise]: whatever the acceptor and the learner are, a
    Promise, by value or by pointer, reaches the default case, which
    logs it as an unknown message type; the node, and with it the
    proposer, is left as it was and nothing is sent. *)
Theorem promise_is_dropped (n : Node) (pr : Promise) :
  routeMessage HandlePrepare HandleAccept HandleAccepted HandleLearn n
    (ByValue (PPromise pr))
    = (n, [Log (LogUnknownMessageType (id n) (ByValue (PPromise pr)))]) /\
  routeMessage HandlePrepare HandleAccept HandleAccepted HandleLearn n
    (ByPointer (PPromise pr))
    = (n, [Log (LogUnknownMessageType (id n) (ByPointer (PPromise pr)))]) /\
  handleMessages HandlePrepare HandleAccept HandleAccepted HandleLearn n
    [Arrived (ByValue (PPromise pr))]
    = (n, [Log (LogUnknownMessageType (id n) (ByValue (PPromise pr)))]).
Proof. split; [reflexivity|]. split; reflexivity. Qed.

End NodeProperties.

(** ** More on the phases: what they read, keep and report *)

Section PhaseFrame.
Import Transport Proposer Traffic.
Local Open Scope Z_scope.

Implicit Types (p : Proposer) (t : Transport) (events : list event).

(** Whatever way the first loop of [runPhase1] ends, it has consumed a
    prefix of the inbox, has changed nothing of the proposer but
    [highestRound], which it never lowers, and [promise], to which it
    has appended grants for the current proposal that it consumed. *)
Lemma awaitPromises_frame events closing : forall p count p' events' st,
  awaitPromises events closing p count = (p', events', st) ->
  exists consumed more,
    events = consumed ++ events' /\
    id p' = id p /\ currentProposal p' = currentProposal p /\
    originalValue p' = originalValue p /\
    valueToPropose p' = valueToPropose p /\
    quorumSize p' = quorumSize p /\
    highestRound p <= highestRound p' /\
    promise p' = promise p ++ more /\
    Forall (fun pr => In (Deliver (ByValue (PPromise pr))) consumed /\
                      PN.Equal (Promise_ProposalNumber pr) (currentProposal p)
                        = true /\
                      Promise_OK pr = true) more.
Proof.
  induction events as [|ev events IH]; intros p count p' events' st Hrun;
    cbn [awaitPromises] in Hrun.
  - exists [], []. rewrite app_nil_r.
    destruct (count <? quorumSize p); [destruct closing|];
      injection Hrun as <- <- <-; repeat split; (done || lia).
  - destruct (count <? quorumSize p).
    2:{ injection Hrun as <- <- <-. exists [], []. rewrite app_nil_r.
        repeat split; (done || lia). }
    assert (forall p0 count0,
      awaitPromises events closing p0 count0 = (p', events', st) ->
      id p0 = id p -> currentProposal p0 = currentProposal p ->
      originalValue p0 = originalValue p ->
      valueToPropose p0 = valueToPropose p ->
      quorumSize p0 = quorumSize p ->
      highestRound p <= highestRound p0 ->
      forall mine,
        promise p0 = promise p ++ mine ->
        Forall (fun pr => In (Deliver (ByValue (PPromise pr))) [ev] /\
                   PN.Equal (Promise_ProposalNumber pr) (currentProposal p)
                     = true /\
                   Promise_OK pr = true) mine ->
      exists consumed more,
        ev :: events = consumed ++ events' /\
        id p' = id p /\ currentProposal p' = currentProposal p /\
        originalValue p' = originalValue p /\
        valueToPropose p' = valueToPropose p /\
        quorumSize p' = quorumSize p /\
        highestRound p <= highestRound p' /\
        promise p' = promise p ++ more /\
        Forall (fun pr => In (Deliver (ByValue (PPromise pr))) consumed /\
                   PN.Equal (Promise_ProposalNumber pr) (currentProposal p)
                     = true /\
                   Promise_OK pr = true) more) as Hstep.
    { intros p0 count0 Hrun0 Hid Hcur Hov Hv Hq Hhr mine Hpr Hmine.
      apply IH in Hrun0
        as (consumed & more & -> & Hid' & Hcur' & Hov' & Hv' & Hq' & Hhr'
            & Hpr' & Hmore).
      exists (ev :: consumed), (mine ++ more).
      split; [done|]. repeat split; try congruence; try lia.
      - by rewrite Hpr', Hpr, app_assoc.
      - apply Forall_app. split.
        + eapply Forall_impl; [exact Hmine|]. cbn beta.
          intros pr ([Hin|[]] & ? & ?). repeat split; [|done|done].
          left. exact Hin.
        + eapply Forall_impl; [exact Hmore|]. cbn beta.
          intros pr (Hin & Heq & Hok). rewrite Hcur in Heq.
          repeat split; [|done|done]. by right. }
    destruct ev as [[[m|pr|m|m|m|m]|pl|from]|e];
      try (apply (Hstep p count Hrun eq_refl eq_refl eq_refl eq_refl
                    eq_refl ltac:(lia) []);
           [by rewrite app_nil_r | constructor]).
    + destruct (PN.Equal (Promise_ProposalNumber pr) (currentProposal p))
        eqn:Eeq; cbn [negb] in Hrun.
      * destruct (Promise_OK pr) eqn:Eok; cbn [negb] in Hrun.
        -- apply (Hstep _ _ Hrun eq_refl eq_refl eq_refl eq_refl eq_refl
                    ltac:(cbn; lia) [pr]); [done|].
           constructor; [|constructor].
           split; [by left|]. by split.
        -- injection Hrun as <- <- <-.
           exists [Deliver (ByValue (PPromise pr))], [].
           rewrite app_nil_r.
           unfold handleRejection.
           destruct (Z.gtb_spec (Round (Promise_AcceptedProposal pr))
                       (highestRound p));
             repeat split; cbn; (done || lia).
      * apply (Hstep p count Hrun eq_refl eq_refl eq_refl eq_refl
                  eq_refl ltac:(lia) []);
          [by rewrite app_nil_r | constructor].
    + injection Hrun as <- <- <-. exists [Fail e], []. rewrite app_nil_r.
      repeat split; (done || lia).
Qed.

(** The loop of [runPhase2] consumes a prefix of the inbox. *)
Lemma awaitAccepted_prefix events closing p : forall count events' st,
  awaitAccepted events closing p count = (events', st) ->
  exists consumed, events = consumed ++ events'.
Proof.
  induction events as [|ev events IH]; intros count events' st Hrun;
    cbn [awaitAccepted] in Hrun.
  - exists []. destruct (count <? quorumSize p); [destruct closing|];
      by injection Hrun as <- <-.
  - destruct (count <? quorumSize p);
      [|injection Hrun as <- <-; by exists []].
    destruct ev as [[[m|m|m|m|ac|m]|pl|from]|e];
      try (apply IH in Hrun as [consumed ->];
           eexists (_ :: consumed); reflexivity).
    + destruct (PN.Equal (Accepted_ProposalNumber ac) (currentProposal p));
        cbn [negb] in Hrun;
        [destruct (Accepted_OK ac); cbn [negb] in Hrun|];
        try (apply IH in Hrun as [consumed ->];
             eexists (_ :: consumed); reflexivity).
      injection Hrun as <- <-. by eexists [_].
    + injection Hrun as <- <-. by eexists [_].
Qed.

End PhaseFrame.

Section PhaseSummaries.
Import Transport Proposer Traffic.
Local Open Scope Z_scope.

Implicit Types (p : Proposer) (t : Transport) (events : list event).

Lemma Broadcast_sent t msg :
  sent (Broadcast t msg).1 = sent t \/ sent (Broadcast t msg).1 = sent t ++ [msg].
Proof. unfold Broadcast. destruct (isClosed t); [by left | by right]. Qed.

Lemma Broadcast_open t msg :
  closing t = false -> sent (Broadcast t msg).1 = sent t ++ [msg].
Proof. intros Hc. unfold Broadcast, isClosed. by rewrite Hc. Qed.

Lemma adopt_offered promises v :
  let r := highestAccepted promises v in
  r.2 = v \/
  exists pr, In pr promises /\
    PN.IsZero (Promise_AcceptedProposal pr) = false /\
    r.2 = Promise_AcceptedValue pr.
Proof.
  cbn zeta. unfold highestAccepted.
  destruct (adopt_fold promises PN.zero v) as (_ & _ & [Hr | Hr]).
  - left. by rewrite Hr.
  - right. destruct Hr as (pr & Hin & Hnz & Hr). exists pr.
    split; [by apply list_elem_of_In|]. split; [done|]. by rewrite Hr.
Qed.

(** What one run of [runPhase1] does to the proposer and the transport,
    whatever its status. *)
Lemma runPhase1_frame p t p1 t1 st :
  runPhase1 p t = (p1, t1, st) ->
  (exists consumed, inbox t = consumed ++ inbox t1 /\
     (promise p = [] ->
      valueToPropose p1 = valueToPropose p \/
      offered consumed (valueToPropose p1))) /\
  closing t1 = closing t /\
  id p1 = id p /\ currentProposal p1 = currentProposal p /\
  originalValue p1 = originalValue p /\ quorumSize p1 = quorumSize p /\
  highestRound p <= highestRound p1 /\
  (st <> Ok -> valueToPropose p1 = valueToPropose p) /\
  (sent t1 = sent t \/
   sent t1 = sent t
             ++ [ByValue (PPrepare (mkPrepare (currentProposal p) (id p)))]).
Proof.
  unfold runPhase1. rewrite Broadcast_inbox, Broadcast_closing.
  set (msg := ByValue (PPrepare (mkPrepare (currentProposal p) (id p)))).
  destruct (awaitPromises (inbox t) (closing t) p 0)
    as [[p' events'] st'] eqn:Eloop.
  apply awaitPromises_frame in Eloop
    as (consumed & more & Hin & Hid & Hcur & Hov & Hv & Hq & Hhr & Hpr
        & Hmore).
  intros Hrun.
  assert (forall p'' , (p'', rest (Broadcast t msg).1 events', st')
                       = (p1, t1, st) ->
          closing t1 = closing t /\ inbox t1 = events' /\
          (sent t1 = sent t \/ sent t1 = sent t ++ [msg])) as Ht.
  { intros p'' [= _ <- _]. cbn. rewrite Broadcast_closing.
    split; [done|]. split; [done|]. apply Broadcast_sent. }
  destruct st'.
  - destruct (Ht _ Hrun) as (Hc & Hi & Hs). injection Hrun as <- _ <-.
    cbn [setValueToPropose id highestRound currentProposal originalValue
         valueToPropose promise quorumSize].
    split; [|by repeat split].
    exists consumed. rewrite Hi. split; [done|]. intros Hnil.
    rewrite Hnil in Hpr. cbn [app] in Hpr. rewrite Hpr, Hv.
    destruct (adopt_offered more (valueToPropose p))
      as [Hsame | (pr & Hinp & Hnz & Hval)]; [by left|].
    right. rewrite Forall_forall in Hmore.
    destruct (Hmore pr (proj2 (list_elem_of_In _ _) Hinp))
      as (Hdel & _ & Hok).
    exists pr. by rewrite Hval.
  - destruct (Ht _ Hrun) as (Hc & Hi & Hs). injection Hrun as <- _ <-.
    split; [|by repeat split].
    exists consumed. rewrite Hi. split; [done|]. intros _. by left.
  - destruct (Ht _ Hrun) as (Hc & Hi & Hs). injection Hrun as <- _ <-.
    split; [|by repeat split].
    exists consumed. rewrite Hi. split; [done|]. intros _. by left.
Qed.

(** The same for [runPhase2]. *)
Lemma runPhase2_frame p t p2 t2 st :
  runPhase2 p t = (p2, t2, st) ->
  p2 = p /\
  (exists consumed, inbox t = consumed ++ inbox t2) /\
  closing t2 = closing t /\
  (exists new, sent t2 = sent t ++ new /\
     Forall (fun m =>
               m = ByValue (PAccept (mkAccept (currentProposal p)
                                       (valueToPropose p) (id p))) \/
               m = ByValue (PLearn (mkLearn (currentProposal p)
                                      (valueToPropose p) (id p)))) new) /\
  (st = Ok -> closing t = false ->
   sent t2 = sent t
     ++ [ByValue (PAccept (mkAccept (currentProposal p)
                             (valueToPropose p) (id p)));
         ByValue (PLearn (mkLearn (currentProposal p)
                            (valueToPropose p) (id p)))]).
Proof.
  intros Hrun. split.
  { pose proof (runPhase2_proposer p t) as Hp. by rewrite Hrun in Hp. }
  revert Hrun. unfold runPhase2.
  rewrite Broadcast_inbox, Broadcast_closing.
  set (acc := ByValue (PAccept _)). set (lrn := ByValue (PLearn _)).
  destruct (awaitAccepted (inbox t) (closing t) p 0)
    as [events' st'] eqn:Eloop.
  apply awaitAccepted_prefix in Eloop as [consumed Hin].
  assert (exists new, sent (Broadcast t acc).1 = sent t ++ new /\
            Forall (fun m => m = acc \/ m = lrn) new) as (new & Hnew & Hall).
  { destruct (Broadcast_sent t acc) as [-> | ->].
    - exists []. by rewrite app_nil_r.
    - exists [acc]. split; [done|]. constructor; [by left|constructor]. }
  destruct st'; intros [= _ <- <-].
  - split; [exists consumed; by rewrite Broadcast_inbox|].
    split; [rewrite Broadcast_closing; cbn [rest closing];
            by rewrite Broadcast_closing|].
    split.
    + destruct (Broadcast_sent (rest (Broadcast t acc).1 events') lrn)
        as [-> | ->]; cbn [rest sent]; rewrite Hnew.
      * by exists new.
      * exists (new ++ [lrn]). rewrite app_assoc. split; [done|].
        apply Forall_app. split; [done|].
        constructor; [by right|constructor].
    + intros _ Hc. rewrite Broadcast_open
        by (cbn [rest closing]; by rewrite Broadcast_closing).
      cbn [rest sent]. rewrite Broadcast_open by done.
      by rewrite <- app_assoc.
  - cbn [rest inbox closing sent]. split; [by exists consumed|].
    split; [by rewrite Broadcast_closing|].
    split; [by exists new|]. done.
  - cbn [rest inbox closing sent]. split; [by exists consumed|].
    split; [by rewrite Broadcast_closing|].
    split; [by exists new|]. done.
Qed.

End PhaseSummaries.

(** ** What a call of [Propose] returns and sends *)

Section ProposeProperties.
Import Transport Proposer Traffic Scenario.
Local Open Scope Z_scope.

Implicit Types (p : Proposer) (t : Transport) (events : list event).

Lemma offered_app_r pre events v : offered events v -> offered (pre ++ events) v.
Proof.
  intros (pr & Hin & Hrest). exists pr. split; [|done].
  apply in_or_app. by right.
Qed.

Lemma offered_app_l pre events v : offered pre v -> offered (pre ++ events) v.
Proof.
  intros (pr & Hin & Hrest). exists pr. split; [|done].
  apply in_or_app. by left.
Qed.

Lemma proposeLoop_valid fuel : forall p t v err p' t',
  proposeLoop fuel p t = Returned v err p' t' ->
  exists consumed,
    inbox t = consumed ++ inbox t' /\
    (v = valueToPropose p \/ offered consumed v).
Proof.
  induction fuel as [|fuel IH]; intros p t v err p' t' Hrun;
    cbn [proposeLoop] in Hrun; [discriminate|].
  destruct (runPhase1 (beginAttempt p) t) as [[p1 t1] st1] eqn:E1.
  apply runPhase1_frame in E1
    as ((consumed1 & Hin1 & Hval1) & _ & _ & _ & _ & _ & _ & Hkeep1 & _).
  specialize (Hval1 eq_refl).
  change (valueToPropose (beginAttempt p)) with (valueToPropose p)
    in Hval1, Hkeep1.
  assert (forall later,
            inbox t1 = later ++ inbox t' ->
            v = valueToPropose p1 \/ offered later v ->
            exists consumed,
              inbox t = consumed ++ inbox t' /\
              (v = valueToPropose p \/ offered consumed v)) as Hback.
  { intros later Hlater Hv. exists (consumed1 ++ later).
    split; [by rewrite Hin1, Hlater, app_assoc|].
    destruct Hv as [-> | Hoff].
    - destruct Hval1 as [-> | Hoff]; [by left|].
      right. by apply offered_app_l.
    - right. by apply offered_app_r. }
  destruct st1 as [|e|]; [| |discriminate].
  2:{ apply IH in Hrun as (later & Hlater & Hv).
      by apply (Hback later). }
  destruct (runPhase2 p1 t1) as [[p2 t2] st2] eqn:E2.
  apply runPhase2_frame in E2 as (-> & (consumed2 & Hin2) & _).
  destruct st2 as [|e|]; [| |discriminate].
  - injection Hrun as <- _ _ <-. apply (Hback consumed2); [done|by left].
  - apply IH in Hrun as (later & Hlater & Hv).
    apply (Hback (consumed2 ++ later)).
    + by rewrite Hin2, Hlater, app_assoc.
    + destruct Hv as [-> | Hoff]; [by left|].
      right. by apply offered_app_r.
Qed.

(** X1. Validity at the proposer. The value [Propose] returns is the
    value the caller passed or the accepted value reported, with an
    accepted proposal that is not zero, by a Promise of ok=true that
    [Receive] delivered during the call, that is, one in the part of
    the inbox the call has read when it returns; the proposer invents
    no value, and what it left unread has no part in it. *)
Theorem propose_returns_proposed_or_reported fuel p t value v err p' t' :
  Propose fuel p t value = Returned v err p' t' ->
  exists consumed,
    inbox t = consumed ++ inbox t' /\
    (v = value \/ offered consumed v).
Proof. unfold Propose. intros Hrun. by apply proposeLoop_valid in Hrun. Qed.

Lemma propose_returns_proposed_or_reported_witness :
  exists consumed,
    unreadInbox = consumed ++ [unreadPromise] /\
    (bytes_of "A" = bytes_of "B" \/ offered consumed (bytes_of "A")).
Proof.
  exact (propose_returns_proposed_or_reported 2 retryProposer
           (mkTransport unreadInbox false [])
           (bytes_of "B") (bytes_of "A") None _ _ eq_refl).
Defined.

Lemma sentBy_own id n v :
  ProposerID n = id ->
  sentBy id (ByValue (PPrepare (mkPrepare n id))) = true /\
  sentBy id (ByValue (PAccept (mkAccept n v id))) = true /\
  sentBy id (ByValue (PLearn (mkLearn n v id))) = true.
Proof. intros <-. cbn. by rewrite String.eqb_refl. Qed.

Lemma proposeLoop_sends fuel : forall p t,
  id (proposerAfter (proposeLoop fuel p t)) = id p /\
  exists new,
    sent (transportAfter (proposeLoop fuel p t)) = sent t ++ new /\
    forallb (sentBy (id p)) new = true.
Proof.
  induction fuel as [|fuel IH]; intros p t; cbn [proposeLoop].
  - split; [done|]. exists []. by rewrite app_nil_r.
  - assert (ProposerID (currentProposal (beginAttempt p)) = id p) as Hown
      by reflexivity.
    destruct (runPhase1 (beginAttempt p) t) as [[p1 t1] st1] eqn:E1.
    apply runPhase1_frame in E1
      as (_ & _ & Hid1 & Hcur1 & _ & _ & _ & _ & Hs1).
    change (id (beginAttempt p)) with (id p) in Hid1, Hs1.
    assert (exists new1, sent t1 = sent t ++ new1 /\
              forallb (sentBy (id p)) new1 = true) as (new1 & Hnew1 & Hall1).
    { destruct Hs1 as [-> | ->].
      - exists []. by rewrite app_nil_r.
      - eexists [_]. split; [reflexivity|]. cbn [forallb].
        destruct (sentBy_own (id p) (currentProposal (beginAttempt p)) [] Hown)
          as (-> & _). done. }
    assert (forall p0 t0, id p0 = id p ->
              (exists new0, sent t0 = sent t ++ new0 /\
                 forallb (sentBy (id p)) new0 = true) ->
              id (proposerAfter (proposeLoop fuel p0 t0)) = id p /\
              exists new,
                sent (transportAfter (proposeLoop fuel p0 t0)) = sent t ++ new /\
                forallb (sentBy (id p)) new = true) as Hnext.
    { intros p0 t0 Hid0 (new0 & Hnew0 & Hall0).
      destruct (IH p0 t0) as (Hid & new & Hnew & Hall).
      split; [congruence|]. exists (new0 ++ new).
      rewrite Hnew, Hnew0, app_assoc. split; [done|].
      rewrite forallb_app, Hall0. by rewrite <- Hid0. }
    destruct st1 as [|e|].
    + destruct (runPhase2 p1 t1) as [[p2 t2] st2] eqn:E2.
      apply runPhase2_frame in E2
        as (-> & _ & _ & (new2 & Hnew2 & Hall2) & _).
      assert (exists new0, sent t2 = sent t ++ new0 /\
                forallb (sentBy (id p)) new0 = true) as Hsent2.
      { exists (new1 ++ new2). rewrite Hnew2, Hnew1, app_assoc.
        split; [done|]. rewrite forallb_app, Hall1. cbn [andb].
        apply forallb_forall. intros m Hm.
        rewrite Forall_forall in Hall2.
        destruct (sentBy_own (id p) (currentProposal (beginAttempt p))
                    (valueToPropose p1) Hown) as (_ & Hacc & Hlrn).
        rewrite Hcur1, Hid1 in Hall2.
        destruct (Hall2 m (proj2 (list_elem_of_In _ _) Hm)) as [-> | ->];
          done. }
      destruct st2 as [|e|]; cbn [proposerAfter transportAfter].
      * by split.
      * by apply Hnext.
      * by split.
    + apply Hnext; [done|]. by exists new1.
    + cbn [proposerAfter transportAfter]. split; [done|]. by exists new1.
Qed.

(** X2. What [Propose] sends. However a call of [Propose] ends, and
    however long it runs, everything it has broadcast is a [Prepare],
    an [Accept] or a [Learn] value whose [From] is the proposer's id and
    whose proposal number carries that id; it never broadcasts a
    Promise, an Accepted or a message in another proposer's name. *)
Theorem propose_sends_only_its_own fuel p t value :
  id (proposerAfter (Propose fuel p t value)) = id p /\
  exists new,
    sent (transportAfter (Propose fuel p t value)) = sent t ++ new /\
    forallb (sentBy (id p)) new = true.
Proof.
  unfold Propose.
  exact (proposeLoop_sends fuel
           (mkProposer (id p) (highestRound p) (currentProposal p) value
              value (promise p) (quorumSize p)) t).
Qed.

Lemma proposeLoop_last_sent fuel : forall p t v err p' t',
  closing t = false ->
  proposeLoop fuel p t = Returned v err p' t' ->
  err = None /\
  v = valueToPropose p' /\
  Round (currentProposal p') = highestRound p' /\
  exists earlier,
    sent t' = earlier
      ++ [ByValue (PAccept (mkAccept (currentProposal p') v (id p')));
          ByValue (PLearn (mkLearn (currentProposal p') v (id p')))].
Proof.
  induction fuel as [|fuel IH]; intros p t v err p' t' Hopen Hrun;
    cbn [proposeLoop] in Hrun; [discriminate|].
  destruct (runPhase1 (beginAttempt p) t) as [[p1 t1] st1] eqn:E1.
  pose proof E1 as E1'.
  apply runPhase1_frame in E1
    as (_ & Hc1 & _ & Hcur1 & _ & _ & _ & _ & _).
  rewrite Hopen in Hc1.
  destruct st1 as [|e|]; [|by eapply IH|discriminate].
  destruct (runPhase2 p1 t1) as [[p2 t2] st2] eqn:E2.
  apply runPhase2_frame in E2 as (-> & _ & Hc2 & _ & Hlast).
  rewrite Hc1 in Hc2.
  destruct st2 as [|e|]; [|by eapply IH|discriminate].
  injection Hrun as Hv He Hp Ht. subst v err p' t'.
  split; [done|]. split; [done|].
  split; [|eexists; by apply Hlast].
  rewrite Hcur1.
  unfold runPhase1 in E1'.
  destruct (awaitPromises _ _ _ _) as [[p0 ev0] st0] eqn:Eloop.
  destruct st0; try discriminate. injection E1' as <- _.
  apply awaitPromises_ok in Eloop as (consumed & _ & Hp0 & _).
  rewrite Hp0. reflexivity.
Qed.

(** X3. The return of [Propose] and its last broadcasts. On a transport
    that is not being closed, when [Propose] returns a value its error
    is nil, the proposal it ends on is the last number it drew, and the
    last two messages it has broadcast are the Accept and then the Learn
    for that proposal, both carrying the value it returns. *)
Theorem propose_returns_what_it_taught fuel p t value v err p' t' :
  closing t = false ->
  Propose fuel p t value = Returned v err p' t' ->
  err = None /\
  Round (currentProposal p') = highestRound p' /\
  exists earlier,
    sent t' = earlier
      ++ [ByValue (PAccept (mkAccept (currentProposal p') v (id p')));
          ByValue (PLearn (mkLearn (currentProposal p') v (id p')))].
Proof.
  intros Hopen Hrun. unfold Propose in Hrun.
  apply proposeLoop_last_sent in Hrun as (He & _ & Hr & Hs); done.
Qed.

Lemma propose_returns_what_it_taught_witness :
  closing retryTransport = false /\
  exists p' t' earlier,
    Propose 2 retryProposer retryTransport (bytes_of "B")
      = Returned (bytes_of "A") None p' t' /\
    sent t' = earlier
      ++ [ByValue (PAccept (mkAccept (currentProposal p') (bytes_of "A")
                              (id p')));
          ByValue (PLearn (mkLearn (currentProposal p') (bytes_of "A")
                             (id p')))].
Proof.
  split; [reflexivity|].
  destruct (propose_returns_what_it_taught 2 retryProposer retryTransport
              (bytes_of "B") (bytes_of "A") None _ _ eq_refl eq_refl)
    as (_ & _ & earlier & Hsent).
  eexists _, _, earlier. split; [reflexivity|]. exact Hsent.
Defined.

End ProposeProperties.

(** ** Quorums: none needed, gathered, out of reach *)

Section QuorumProperties.
Import Transport Proposer Traffic Scenario.
Local Open Scope Z_scope.

Implicit Types (p : Proposer) (t : Transport) (events : list event).

Lemma awaitPromises_done events closing p count :
  quorumSize p <= count ->
  awaitPromises events closing p count = (p, events, Ok).
Proof.
  intros Hq. destruct events; cbn [awaitPromises];
    by destruct (Z.ltb_spec count (quorumSize p)); [lia|].
Qed.

Lemma awaitAccepted_done events closing p count :
  quorumSize p <= count ->
  awaitAccepted events closing p count = (events, Ok).
Proof.
  intros Hq. destruct events; cbn [awaitAccepted];
    by destruct (Z.ltb_spec count (quorumSize p)); [lia|].
Qed.

(** X4. A quorum size of zero or less. Both loops test
    [count < p.quorumSize] before they receive, so with a quorum size
    that is not positive [Propose] returns the caller's value in its
    first attempt without a single call of [Receive]: the inbox is left
    as it was and no promise is held. *)
Theorem propose_without_quorum fuel p t value :
  quorumSize p <= 0 ->
  exists p' t',
    Propose (S fuel) p t value = Returned value None p' t' /\
    inbox t' = inbox t /\ promise p' = [] /\
    highestRound p' = Int64.incr (highestRound p).
Proof.
  intros Hq. unfold Propose. cbn [proposeLoop]. unfold runPhase1.
  rewrite awaitPromises_done by (cbn; lia).
  cbn [beginAttempt generateProposalNumber promise highestAccepted
       fold_left snd valueToPropose setValueToPropose].
  unfold runPhase2. rewrite awaitAccepted_done by (cbn; lia).
  eexists _, _. split; [reflexivity|].
  cbn. by rewrite !Broadcast_inbox.
Qed.

Lemma propose_without_quorum_witness :
  quorumSize (NewProposer "n0" 0) <= 0 /\
  exists p' t',
    Propose 1 (NewProposer "n0" 0) retryTransport (bytes_of "B")
      = Returned (bytes_of "B") None p' t' /\
    inbox t' = retryInbox.
Proof.
  assert (quorumSize (NewProposer "n0" 0) <= 0) as Hq by (cbn; lia).
  split; [exact Hq|].
  destruct (propose_without_quorum 0 (NewProposer "n0" 0) retryTransport
              (bytes_of "B") Hq) as (p' & t' & Hrun & Hin & _).
  exists p', t'. split; [exact Hrun | exact Hin].
Defined.

Lemma awaitPromises_grants prs : forall events closing p count,
  Forall (fun pr => Promise_ProposalNumber pr = currentProposal p /\
                    Promise_OK pr = true) prs ->
  count + Z.of_nat (length prs) = quorumSize p ->
  awaitPromises (asPromises prs ++ events) closing p count
  = (mkProposer (id p) (highestRound p) (currentProposal p)
       (originalValue p) (valueToPropose p) (promise p ++ prs)
       (quorumSize p),
     events, Ok).
Proof.
  induction prs as [|pr prs IH]; intros events closing p count Hall Hlen.
  - cbn [asPromises map app]. rewrite awaitPromises_done by (cbn in Hlen; lia).
    rewrite app_nil_r. by destruct p.
  - apply Forall_cons in Hall as [[Hpn Hok] Hall].
    cbn [asPromises map app awaitPromises].
    destruct (Z.ltb_spec count (quorumSize p)); [|cbn in Hlen; lia].
    rewrite Hpn, Equal_refl, Hok. cbn [negb].
    change (map (fun pr0 => Deliver (ByValue (PPromise pr0))) prs)
      with (asPromises prs).
    rewrite IH; [|done|cbn in *; lia].
    cbn [appendPromise id highestRound currentProposal originalValue
         valueToPropose promise quorumSize].
    by rewrite <- app_assoc.
Qed.

Lemma awaitAccepted_grants acs : forall events closing p count,
  Forall (fun ac => Accepted_ProposalNumber ac = currentProposal p /\
                    Accepted_OK ac = true) acs ->
  count + Z.of_nat (length acs) = quorumSize p ->
  awaitAccepted (asAccepteds acs ++ events) closing p count = (events, Ok).
Proof.
  induction acs as [|ac acs IH]; intros events closing p count Hall Hlen.
  - cbn [asAccepteds map app]. by rewrite awaitAccepted_done
      by (cbn in Hlen; lia).
  - apply Forall_cons in Hall as [[Hpn Hok] Hall].
    cbn [asAccepteds map app awaitAccepted].
    destruct (Z.ltb_spec count (quorumSize p)); [|cbn in Hlen; lia].
    rewrite Hpn, Equal_refl, Hok. cbn [negb].
    change (map (fun ac0 => Deliver (ByValue (PAccepted ac0))) acs)
      with (asAccepteds acs).
    apply IH; [done|cbn in *; lia].
Qed.

Lemma highestAccepted_all_zero prs v :
  Forall (fun pr => PN.IsZero (Promise_AcceptedProposal pr) = true) prs ->
  highestAccepted prs v = (PN.zero, v).
Proof.
  unfold highestAccepted. induction 1 as [|pr prs Hz _ IH]; [done|].
  cbn [fold_left]. unfold adoptStep at 2. by rewrite Hz.
Qed.

(** X5. A quorum of grants. Let [n] be the number the proposer draws
    next.  If, on a transport that is not being closed, [Receive]
    delivers [quorumSize] Promises of ok=true for [n] that report no
    accepted proposal and then [quorumSize] Accepteds of ok=true for
    [n], [Propose] returns the caller's value in its first attempt: it
    has broadcast Prepare, Accept and Learn for [n], in this order and
    nothing else, holds exactly those promises, and has left the rest
    of the inbox unread. *)
Theorem propose_with_quorum fuel p t value prs acs unread :
  closing t = false ->
  inbox t = asPromises prs ++ asAccepteds acs ++ unread ->
  Forall (fun pr => Promise_ProposalNumber pr = (generateProposalNumber p).2 /\
                    Promise_OK pr = true /\
                    PN.IsZero (Promise_AcceptedProposal pr) = true) prs ->
  Forall (fun ac => Accepted_ProposalNumber ac = (generateProposalNumber p).2 /\
                    Accepted_OK ac = true) acs ->
  Z.of_nat (length prs) = quorumSize p ->
  Z.of_nat (length acs) = quorumSize p ->
  exists p' t',
    Propose (S fuel) p t value = Returned value None p' t' /\
    inbox t' = unread /\ promise p' = prs /\
    currentProposal p' = (generateProposalNumber p).2 /\
    sent t' = sent t ++
      [ ByValue (PPrepare (mkPrepare (generateProposalNumber p).2 (id p)));
        ByValue (PAccept (mkAccept (generateProposalNumber p).2 value (id p)));
        ByValue (PLearn (mkLearn (generateProposalNumber p).2 value (id p))) ].
Proof.
  intros Hopen Hin Hprs Hacs Hlp Hla.
  unfold Propose. cbn [proposeLoop].
  set (p0 := beginAttempt _).
  assert (currentProposal p0 = (generateProposalNumber p).2) as Hcur
    by reflexivity.
  unfold runPhase1. rewrite Broadcast_inbox, Broadcast_closing, Hin.
  rewrite (awaitPromises_grants prs _ _ p0 0);
    [| eapply Forall_impl; [exact Hprs|]; cbn beta; intros pr (? & ? & ?);
       by rewrite Hcur
     | cbn; lia].
  cbn [promise p0 beginAttempt generateProposalNumber app valueToPropose].
  rewrite highestAccepted_all_zero
    by (eapply Forall_impl; [exact Hprs|]; cbn beta; by intros pr (? & ? & ?)).
  cbn [snd setValueToPropose id highestRound currentProposal originalValue
       valueToPropose promise quorumSize].
  unfold runPhase2.
  rewrite Broadcast_inbox, Broadcast_closing.
  cbn [rest inbox closing].
  rewrite awaitAccepted_grants; [| exact Hacs | cbn; lia].
  eexists _, _. split; [reflexivity|].
  rewrite Broadcast_inbox. cbn [rest inbox].
  split; [done|]. split; [done|]. split; [done|].
  rewrite Broadcast_open
    by (cbn [rest closing]; rewrite !Broadcast_closing; cbn [rest closing];
        by rewrite Broadcast_closing).
  cbn [rest sent]. rewrite Broadcast_open
    by (cbn [rest closing]; by rewrite Broadcast_closing).
  cbn [rest sent]. rewrite Broadcast_open by done.
  by rewrite <- !app_assoc.
Qed.

Lemma awaitPromises_starved events : forall p count,
  deliveries events = true ->
  noRejection (currentProposal p) events = true ->
  count + Z.of_nat (length (grantsFor (currentProposal p) events))
    < quorumSize p ->
  awaitPromises events false p count
  = (mkProposer (id p) (highestRound p) (currentProposal p)
       (originalValue p) (valueToPropose p)
       (promise p ++ grantsFor (currentProposal p) events) (quorumSize p),
     [], Blocked).
Proof.
  induction events as [|ev events IH]; intros p count Hdel Hrej Hlen.
  - cbn [awaitPromises]. cbn in Hlen.
    destruct (Z.ltb_spec count (quorumSize p)); [|lia].
    cbn. rewrite app_nil_r. by destruct p.
  - cbn [deliveries noRejection forallb] in Hdel, Hrej.
    apply andb_prop in Hdel as [Hev Hdel], Hrej as [Hevr Hrej].
    cbn [awaitPromises].
    destruct (Z.ltb_spec count (quorumSize p)) as [_|Hge].
    2:{ pose proof (Zle_0_nat (length (grantsFor (currentProposal p)
                                          (ev :: events)))). lia. }
    destruct ev as [[[m|pr|m|m|m|m]|pl|from]|e]; try discriminate;
      try (apply IH; done).
    unfold grantsFor in *. cbn [omap list_omap] in *.
    destruct (PN.Equal (Promise_ProposalNumber pr) (currentProposal p));
      cbn [negb andb orb] in *; [|by apply IH].
    rewrite Hevr in *. cbn [negb] in *.
    rewrite (IH (appendPromise p pr) (count + 1)); [|done|done|].
    + cbn [appendPromise id highestRound currentProposal originalValue
           valueToPropose promise quorumSize].
      by rewrite <- app_assoc.
    + cbn [appendPromise currentProposal quorumSize]. cbn [length] in Hlen.
      lia.
Qed.

(** X6. Fewer grants than the quorum. If the transport is not being
    closed, no call of [Receive] fails, no Promise rejects the number
    [n] that the proposer draws next, and fewer than [quorumSize]
    Promises of ok=true for [n] arrive, then [Propose] never returns: it
    reads the whole inbox, keeps the grants it found, and waits in the
    [Receive] of Phase 1, having sent its Prepare and no Accept. *)
Theorem propose_waits_below_quorum fuel p t value :
  closing t = false ->
  deliveries (inbox t) = true ->
  noRejection (generateProposalNumber p).2 (inbox t) = true ->
  Z.of_nat (length (grantsFor (generateProposalNumber p).2 (inbox t)))
    < quorumSize p ->
  exists p' t',
    Propose (S fuel) p t value = Waiting p' t' /\
    inbox t' = [] /\
    promise p' = grantsFor (generateProposalNumber p).2 (inbox t) /\
    sent t' = sent t ++
      [ByValue (PPrepare (mkPrepare (generateProposalNumber p).2 (id p)))].
Proof.
  intros Hopen Hdel Hrej Hlen.
  unfold Propose. cbn [proposeLoop].
  set (p0 := beginAttempt _).
  unfold runPhase1. rewrite Broadcast_inbox, Broadcast_closing, Hopen.
  rewrite (awaitPromises_starved (inbox t) p0 0); [|done|done|exact Hlen].
  eexists _, _. split; [reflexivity|].
  cbn [rest inbox sent promise p0 beginAttempt generateProposalNumber app].
  split; [done|]. split; [done|]. by apply Broadcast_open.
Qed.

Lemma propose_waits_below_quorum_witness :
  exists p' t',
    Propose 1 (NewProposer "n0" 3) duplicateTransport (bytes_of "v")
      = Waiting p' t' /\
    inbox t' = [].
Proof.
  destruct (propose_waits_below_quorum 0 (NewProposer "n0" 3)
              duplicateTransport (bytes_of "v") eq_refl eq_refl eq_refl
              ltac:(vm_compute; reflexivity))
    as (p' & t' & Hrun & Hin & _).
  exists p', t'. split; [exact Hrun | exact Hin].
Defined.

Lemma propose_with_quorum_witness :
  exists p' t',
    Propose 1 (NewProposer "n0" 2) quorumTransport (bytes_of "v")
      = Returned (bytes_of "v") None p' t' /\
    inbox t' = [strayLearn].
Proof.
  destruct (propose_with_quorum 0 (NewProposer "n0" 2) quorumTransport
              (bytes_of "v") quorumPromises quorumAccepteds [strayLearn]
              eq_refl eq_refl
              ltac:(repeat constructor) ltac:(repeat constructor)
              eq_refl eq_refl)
    as (p' & t' & Hrun & Hin & _).
  exists p', t'. split; [exact Hrun | exact Hin].
Defined.

End QuorumProperties.

(** ** Errors of the phases, and messages that do not count *)

Section PhaseErrors.
Import Transport Proposer Traffic Scenario.
Local Open Scope Z_scope.

Implicit Types (p : Proposer) (t : Transport) (events : list event).

Lemma rejectedBy_cons ev events current pr :
  rejectedBy events current pr -> rejectedBy (ev :: events) current pr.
Proof. intros (Hin & Hrest). split; [by right|done]. Qed.

Lemma awaitPromises_error events closing : forall p count p' events' e,
  awaitPromises events closing p count = (p', events', Err e) ->
  (exists pr, rejectedBy events (currentProposal p) pr /\
     e = ErrRejected /\
     highestRound p'
       = Z.max (highestRound p) (Round (Promise_AcceptedProposal pr))) \/
  ((In (Fail e) events \/ (closing = true /\ e = ErrClosed)) /\
   highestRound p' = highestRound p).
Proof.
  induction events as [|ev events IH]; intros p count p' events' e Hrun;
    cbn [awaitPromises] in Hrun.
  - destruct (count <? quorumSize p); [|discriminate].
    destruct closing; [|discriminate]. injection Hrun as <- _ <-.
    right. split; [by right|done].
  - destruct (count <? quorumSize p); [|discriminate].
    assert (forall p0 count0,
      awaitPromises events closing p0 count0 = (p', events', Err e) ->
      currentProposal p0 = currentProposal p ->
      highestRound p0 = highestRound p ->
      (exists pr, rejectedBy (ev :: events) (currentProposal p) pr /\
         e = ErrRejected /\
         highestRound p'
           = Z.max (highestRound p) (Round (Promise_AcceptedProposal pr))) \/
      ((In (Fail e) (ev :: events) \/ (closing = true /\ e = ErrClosed)) /\
       highestRound p' = highestRound p)) as Hstep.
    { intros p0 count0 Hrun0 Hcur Hhr.
      apply IH in Hrun0 as [(pr & Hrej & He & Hmax) | ([Hin | Hcl] & Hsame)].
      - left. exists pr. rewrite Hcur in Hrej. rewrite Hhr in Hmax.
        split; [by apply rejectedBy_cons|done].
      - right. split; [left; by right | congruence].
      - right. split; [by right | congruence]. }
    destruct ev as [[[m|pr|m|m|m|m]|pl|from]|e0];
      try (by apply (Hstep p count Hrun)).
    + destruct (PN.Equal (Promise_ProposalNumber pr) (currentProposal p))
        eqn:Eeq; cbn [negb] in Hrun; [|by apply (Hstep p count Hrun)].
      destruct (Promise_OK pr) eqn:Eok; cbn [negb] in Hrun;
        [by apply (Hstep _ _ Hrun)|].
      injection Hrun as <- _ <-. left. exists pr.
      split; [split; [by left|done]|]. split; [done|].
      apply handleRejection_round.
    + injection Hrun as <- _ <-. right. split; [left; by left|done].
Qed.

Lemma awaitAccepted_error events closing p : forall count events' e,
  awaitAccepted events closing p count = (events', Err e) ->
  (exists ac, In (Deliver (ByValue (PAccepted ac))) events /\
     PN.Equal (Accepted_ProposalNumber ac) (currentProposal p) = true /\
     Accepted_OK ac = false /\ e = ErrRejected) \/
  In (Fail e) events \/ (closing = true /\ e = ErrClosed).
Proof.
  induction events as [|ev events IH]; intros count events' e Hrun;
    cbn [awaitAccepted] in Hrun.
  - destruct (count <? quorumSize p); [|discriminate].
    destruct closing; [|discriminate]. injection Hrun as _ <-. by right; right.
  - destruct (count <? quorumSize p); [|discriminate].
    assert (forall count0,
      awaitAccepted events closing p count0 = (events', Err e) ->
      (exists ac, In (Deliver (ByValue (PAccepted ac))) (ev :: events) /\
         PN.Equal (Accepted_ProposalNumber ac) (currentProposal p) = true /\
         Accepted_OK ac = false /\ e = ErrRejected) \/
      In (Fail e) (ev :: events) \/ (closing = true /\ e = ErrClosed))
      as Hstep.
    { intros count0 Hrun0.
      apply IH in Hrun0 as [(ac & Hin & Hrest) | [Hin | Hcl]].
      - left. exists ac. split; [by right|done].
      - right. left. by right.
      - by right; right. }
    destruct ev as [[[m|m|m|m|ac|m]|pl|from]|e0];
      try (by apply (Hstep count Hrun)).
    + destruct (PN.Equal (Accepted_ProposalNumber ac) (currentProposal p))
        eqn:Eeq; cbn [negb] in Hrun; [|by apply (Hstep count Hrun)].
      destruct (Accepted_OK ac) eqn:Eok; cbn [negb] in Hrun;
        [by apply (Hstep _ Hrun)|].
      injection Hrun as _ <-. left. exists ac.
      split; [by left|done].
    + injection Hrun as _ <-. right. left. by left.
Qed.

(** X7. The errors of the two phases. [runPhase1] returns an error in
    three cases only: a Promise of ok=false for the current proposal
    arrived, and then the error is [ErrRejected] and [highestRound] is
    the maximum of what it was and the round the Promise reports; a
    call of [Receive] failed, and then that very error is returned; or
    the transport was closed.  In the last two cases [highestRound]
    stays, and in all three the value to propose stays.  [runPhase2]
    returns an error in the same three cases, with an Accepted of
    ok=false in place of the Promise, and leaves the proposer alone. *)
Theorem phase_errors p t :
  (forall p1 t1 e, runPhase1 p t = (p1, t1, Err e) ->
     valueToPropose p1 = valueToPropose p /\
     ((exists pr, rejectedBy (inbox t) (currentProposal p) pr /\
         e = ErrRejected /\
         highestRound p1
           = Z.max (highestRound p) (Round (Promise_AcceptedProposal pr))) \/
      ((In (Fail e) (inbox t) \/ (closing t = true /\ e = ErrClosed)) /\
       highestRound p1 = highestRound p))) /\
  (forall p2 t2 e, runPhase2 p t = (p2, t2, Err e) ->
     p2 = p /\
     ((exists ac, In (Deliver (ByValue (PAccepted ac))) (inbox t) /\
         PN.Equal (Accepted_ProposalNumber ac) (currentProposal p) = true /\
         Accepted_OK ac = false /\ e = ErrRejected) \/
      In (Fail e) (inbox t) \/ (closing t = true /\ e = ErrClosed))).
Proof.
  split.
  - intros p1 t1 e Hrun. split.
    { apply runPhase1_frame in Hrun
        as (_ & _ & _ & _ & _ & _ & _ & Hkeep & _). by apply Hkeep. }
    unfold runPhase1 in Hrun.
    rewrite Broadcast_inbox, Broadcast_closing in Hrun.
    destruct (awaitPromises (inbox t) (closing t) p 0)
      as [[p' events'] st] eqn:Eloop.
    destruct st; try discriminate. injection Hrun as <- _ <-.
    by apply awaitPromises_error in Eloop.
  - intros p2 t2 e Hrun. split.
    { pose proof (runPhase2_proposer p t) as Hp. by rewrite Hrun in Hp. }
    unfold runPhase2 in Hrun.
    rewrite Broadcast_inbox, Broadcast_closing in Hrun.
    destruct (awaitAccepted (inbox t) (closing t) p 0)
      as [events' st] eqn:Eloop.
    destruct st; try discriminate. injection Hrun as _ _ <-.
    by apply awaitAccepted_error in Eloop.
Qed.

Lemma phase_errors_witness :
  exists pr,
    rejectedBy [Deliver (ByValue (PPromise busyPromise))]
      (currentProposal roundOne) pr /\
    Round (Promise_AcceptedProposal pr) = 10.
Proof.
  destruct (phase_errors roundOne
              (mkTransport [Deliver (ByValue (PPromise busyPromise))]
                 false [])) as [H1 _].
  destruct (H1 _ _ _ eq_refl) as (_ & [(pr & Hrej & _ & Hmax) | (Hin & _)]).
  - exists pr. split; [exact Hrej|].
    destruct Hrej as ([Heq | []] & _). by injection Heq as <-.
  - exfalso. cbn in Hin. destruct Hin as [[Hf | []] | [Hc _]]; discriminate.
Defined.

Lemma awaitPromises_filter events closing : forall p count,
  (awaitPromises events closing p count).1.1
  = (awaitPromises (List.filter (relevantToPhase1 (currentProposal p)) events)
       closing p count).1.1 /\
  (awaitPromises events closing p count).2
  = (awaitPromises (List.filter (relevantToPhase1 (currentProposal p)) events)
       closing p count).2.
Proof.
  induction events as [|ev events IH]; intros p count; [done|].
  cbn [List.filter].
  destruct (Z.ltb_spec count (quorumSize p)) as [Hlt|Hge].
  2:{ by rewrite !awaitPromises_done by done. }
  assert (forall evs, awaitPromises (ev :: evs) closing p count
    = match ev with
      | Fail e => (p, evs, Err e)
      | Deliver (ByValue (PPromise pr)) =>
          if negb (PN.Equal (Promise_ProposalNumber pr) (currentProposal p))
          then awaitPromises evs closing p count
          else if negb (Promise_OK pr)
          then (handleRejection p (Promise_AcceptedProposal pr), evs,
                Err ErrRejected)
          else awaitPromises evs closing (appendPromise p pr) (count + 1)
      | Deliver _ => awaitPromises evs closing p count
      end) as Hunfold.
  { intros evs. cbn [awaitPromises].
    by destruct (Z.ltb_spec count (quorumSize p)); [|lia]. }
  destruct ev as [[[m|pr|m|m|m|m]|pl|from]|e]; cbn [relevantToPhase1];
    rewrite ?Hunfold; try apply IH; [|done].
  destruct (PN.Equal (Promise_ProposalNumber pr) (currentProposal p)) eqn:Eeq;
    cbn [negb]; [|apply IH].
  rewrite Hunfold, ?Eeq. cbn [negb].
  destruct (Promise_OK pr); cbn [negb]; [|done].
  apply (IH (appendPromise p pr)).
Qed.

Lemma awaitAccepted_filter events closing p : forall count,
  (awaitAccepted events closing p count).2
  = (awaitAccepted (List.filter (relevantToPhase2 (currentProposal p)) events)
       closing p count).2.
Proof.
  induction events as [|ev events IH]; intros count; [done|].
  cbn [List.filter].
  destruct (Z.ltb_spec count (quorumSize p)) as [Hlt|Hge].
  2:{ by rewrite !awaitAccepted_done by done. }
  assert (forall evs, awaitAccepted (ev :: evs) closing p count
    = match ev with
      | Fail e => (evs, Err e)
      | Deliver (ByValue (PAccepted ac)) =>
          if negb (PN.Equal (Accepted_ProposalNumber ac) (currentProposal p))
          then awaitAccepted evs closing p count
          else if negb (Accepted_OK ac)
          then (evs, Err ErrRejected)
          else awaitAccepted evs closing p (count + 1)
      | Deliver _ => awaitAccepted evs closing p count
      end) as Hunfold.
  { intros evs. cbn [awaitAccepted].
    by destruct (Z.ltb_spec count (quorumSize p)); [|lia]. }
  destruct ev as [[[m|m|m|m|ac|m]|pl|from]|e]; cbn [relevantToPhase2];
    rewrite ?Hunfold; try apply IH; [|done].
  destruct (PN.Equal (Accepted_ProposalNumber ac) (currentProposal p)) eqn:Eeq;
    cbn [negb]; [|apply IH].
  rewrite Hunfold, ?Eeq. cbn [negb].
  destruct (Accepted_OK ac); cbn [negb]; [|done].
  apply IH.
Qed.

(** X8. Messages that do not count. Phase 1 acts only on errors of
    [Receive] and on Promise values for the current proposal: messages
    of any other type, Promises passed by pointer and Promises for
    another proposal number are read and dropped, and with or without
    them in the inbox Phase 1 ends with the same proposer and the same
    status.  Phase 2 does the same with Accepted values. *)
Theorem phases_skip_other_messages p t :
  let t1 := rest t (List.filter (relevantToPhase1 (currentProposal p))
                      (inbox t)) in
  let t2 := rest t (List.filter (relevantToPhase2 (currentProposal p))
                      (inbox t)) in
  (runPhase1 p t).1.1 = (runPhase1 p t1).1.1 /\
  (runPhase1 p t).2 = (runPhase1 p t1).2 /\
  (runPhase2 p t).1.1 = (runPhase2 p t2).1.1 /\
  (runPhase2 p t).2 = (runPhase2 p t2).2.
Proof.
  cbn zeta.
  destruct (awaitPromises_filter (inbox t) (closing t) p 0) as [Hp Hst].
  pose proof (awaitAccepted_filter (inbox t) (closing t) p 0) as Hst2.
  split; [|split; [|split]].
  - unfold runPhase1. rewrite !Broadcast_inbox, !Broadcast_closing.
    cbn [rest inbox closing].
    destruct (awaitPromises (inbox t) _ _ _) as [[pa ea] sa].
    destruct (awaitPromises (List.filter _ _) _ _ _) as [[pb eb] sb].
    cbn [fst snd] in Hp, Hst. subst pb sb. by destruct sa.
  - unfold runPhase1. rewrite !Broadcast_inbox, !Broadcast_closing.
    cbn [rest inbox closing].
    destruct (awaitPromises (inbox t) _ _ _) as [[pa ea] sa].
    destruct (awaitPromises (List.filter _ _) _ _ _) as [[pb eb] sb].
    cbn [fst snd] in Hp, Hst. subst pb sb. by destruct sa.
  - by rewrite !runPhase2_proposer.
  - unfold runPhase2. rewrite !Broadcast_inbox, !Broadcast_closing.
    cbn [rest inbox closing].
    destruct (awaitAccepted (inbox t) _ _ _) as [ea sa].
    destruct (awaitAccepted (List.filter _ _) _ _ _) as [eb sb].
    cbn [snd] in Hst2. subst sb. by destruct sa.
Qed.

End PhaseErrors.

(** ** Adoption, rejections and the identity of proposal numbers *)

Section NumberProperties.
Import Transport Proposer Traffic Scenario.
Local Open Scope Z_scope.

Implicit Types (p q : Proposer) (t : Transport).

(** X9. Value adoption in Phase 1. When [runPhase1] returns nil and the
    accepted proposals in the promises it holds have rounds that are
    not negative: if none of the promises reports an accepted proposal,
    the value to propose is what it was before the phase; otherwise it
    is the accepted value of one of the promises that report one, and no
    promise held reports a greater accepted proposal. *)
Theorem phase1_adopts_highest p t p1 t1 :
  runPhase1 p t = (p1, t1, Ok) ->
  Forall (fun pr => 0 <= Round (Promise_AcceptedProposal pr)) (promise p1) ->
  (Forall (fun pr => PN.IsZero (Promise_AcceptedProposal pr) = true)
     (promise p1) ->
   valueToPropose p1 = valueToPropose p) /\
  (Exists (fun pr => PN.IsZero (Promise_AcceptedProposal pr) = false)
     (promise p1) ->
   exists pr, In pr (promise p1) /\
     PN.IsZero (Promise_AcceptedProposal pr) = false /\
     valueToPropose p1 = Promise_AcceptedValue pr /\
     Forall (fun pr' => PN.le (Promise_AcceptedProposal pr')
                          (Promise_AcceptedProposal pr)) (promise p1)).
Proof.
  intros Hrun Hpos. apply runPhase1_value in Hrun as (Hval & _ & _).
  destruct (highestAccepted_spec (promise p1) (valueToPropose p) Hpos)
    as [Hnone Hsome].
  split.
  - intros Hz. by rewrite Hval, (Hnone Hz).
  - intros Hex. destruct (Hsome Hex) as (pr & Hin & Hnz & Hr & Hmax).
    exists pr. split; [by apply list_elem_of_In|]. split; [done|].
    split; [by rewrite Hval, Hr | done].
Qed.

Lemma phase1_adopts_highest_witness :
  exists p1 pr,
    In pr (promise p1) /\
    Promise_From pr = "n1"%string /\
    valueToPropose p1 = bytes_of "A".
Proof.
  pose (p := beginAttempt
               (mkProposer "n0" 0 PN.zero (bytes_of "B") (bytes_of "B") [] 2)).
  assert (Forall (fun pr => 0 <= Round (Promise_AcceptedProposal pr))
            (promise (runPhase1 p retryTransport).1.1)) as Hpos
    by (repeat constructor; vm_compute; discriminate).
  destruct (phase1_adopts_highest p retryTransport _ _ eq_refl Hpos)
    as [_ Hsome].
  destruct Hsome as (pr & Hin & Hnz & Hval & _).
  { apply Exists_cons_hd. reflexivity. }
  exists (runPhase1 p retryTransport).1.1, pr.
  split; [exact Hin|]. split; [|reflexivity].
  cbn in Hin. destruct Hin as [<- | [<- | []]]; [reflexivity|].
  vm_compute in Hnz. discriminate.
Defined.

(** X10. Rejections compose like a maximum. [handleRejection] changes
    nothing but [highestRound] and reads nothing of the reported
    proposal but its round; [highestRound] never goes down; applying
    the same rejection twice is the same as once, and two rejections
    may be processed in either order. *)
Theorem handleRejection_laws p a b :
  handleRejection p a
    = mkProposer (id p) (Z.max (highestRound p) (Round a))
        (currentProposal p) (originalValue p) (valueToPropose p)
        (promise p) (quorumSize p) /\
  highestRound p <= highestRound (handleRejection p a) /\
  handleRejection (handleRejection p a) a = handleRejection p a /\
  handleRejection (handleRejection p a) b
    = handleRejection (handleRejection p b) a.
Proof.
  assert (forall p0 c, handleRejection p0 c
    = mkProposer (id p0) (Z.max (highestRound p0) (Round c))
        (currentProposal p0) (originalValue p0) (valueToPropose p0)
        (promise p0) (quorumSize p0)) as Hmax.
  { intros p0 c. unfold handleRejection.
    destruct (Z.gtb_spec (Round c) (highestRound p0)).
    - by rewrite Z.max_r by lia.
    - rewrite Z.max_l by lia. by destruct p0. }
  split; [apply Hmax|]. split; [rewrite Hmax; cbn; lia|].
  rewrite !Hmax. cbn [id highestRound currentProposal originalValue
                      valueToPropose promise quorumSize].
  split; f_equal; lia.
Qed.

Lemma emitted_owner ops : forall p,
  Forall (fun n => ProposerID n = id p) (emitted ops p).
Proof.
  induction ops as [|[|hs] ops IH]; intros p; cbn [emitted].
  - constructor.
  - constructor; [done|]. apply (IH (generateProposalNumber p).1).
  - rewrite <- (handleRejection_id p hs). apply IH.
Qed.

(** X11. Proposal numbers name their proposer. Every number a proposer
    draws carries its id, whatever rejections it processes in between,
    so two proposers with different ids never draw equal numbers, not
    even for equal rounds. *)
Theorem proposers_never_share_a_number p q ops1 ops2 n m :
  id p <> id q ->
  In n (emitted ops1 p) -> In m (emitted ops2 q) ->
  ProposerID n = id p /\ ProposerID m = id q /\ PN.Equal n m = false.
Proof.
  intros Hne Hn Hm.
  pose proof (emitted_owner ops1 p) as Hp.
  pose proof (emitted_owner ops2 q) as Hq.
  rewrite Forall_forall in Hp, Hq.
  specialize (Hp n (proj2 (list_elem_of_In _ _) Hn)).
  specialize (Hq m (proj2 (list_elem_of_In _ _) Hm)).
  split; [done|]. split; [done|].
  destruct (PN.Equal n m) eqn:E; [|done].
  apply Equal_eq in E. congruence.
Qed.

Lemma proposers_never_share_a_number_witness :
  PN.Equal (mkPN 1 "n0") (mkPN 1 "n1") = false.
Proof.
  refine (proj2 (proj2 (proposers_never_share_a_number
            (NewProposer "n0" 3) (NewProposer "n1" 3) [Generate] [Generate]
            (mkPN 1 "n0") (mkPN 1 "n1") _ _ _))).
  - discriminate.
  - left. reflexivity.
  - left. reflexivity.
Defined.

End NumberProperties.

(** ** More on the in-memory storage *)

Section StorageFraming.
Import Storage.

Implicit Types (h : heap) (m : MemoryStorage) (s : slice).

(** Filling a new array touches no array that existed. *)
Lemma clone_frame h n src l :
  l ∈ dom h -> copy (make h n).1 (make h n).2 src !! l = h !! l.
Proof.
  intros Hl. assert (fresh (dom h) <> l) as Hne
    by (intros Heq; rewrite <- Heq in Hl; by apply is_fresh in Hl).
  unfold make. cbn [fst snd copy]. rewrite lookup_insert_eq.
  by rewrite !lookup_insert_ne.
Qed.

Lemma clone_dom h n src :
  dom (copy (make h n).1 (make h n).2 src) = {[fresh (dom h)]} ∪ dom h.
Proof.
  unfold make. cbn [fst snd copy]. rewrite lookup_insert_eq.
  by rewrite insert_insert_eq, dom_insert_L.
Qed.

Lemma clone_length h n src :
  length (contents (copy (make h n).1 (make h n).2 src) (make h n).2) = n.
Proof.
  unfold make. cbn [fst snd copy contents]. rewrite lookup_insert_eq.
  rewrite lookup_insert_eq. cbn [default from_option]. unfold id.
  rewrite length_replicate, length_app, length_take, length_drop,
    length_replicate. lia.
Qed.

Lemma SaveAccepted_frame h m p v :
  dom (SaveAccepted h m p v).1.1 = {[fresh (dom h)]} ∪ dom h /\
  forall l, l ∈ dom h -> (SaveAccepted h m p v).1.1 !! l = h !! l.
Proof.
  unfold SaveAccepted.
  pose proof (clone_dom h (len h v) v) as Hd.
  pose proof (clone_frame h (len h v) v) as Hf.
  destruct (make h (len h v)) as [h1 buf]. cbn [fst snd] in *.
  split; [done|]. intros l Hl. by apply Hf.
Qed.

Lemma LoadAccepted_frame h m :
  dom (LoadAccepted h m).1 = {[fresh (dom h)]} ∪ dom h /\
  forall l, l ∈ dom h -> (LoadAccepted h m).1 !! l = h !! l.
Proof.
  unfold LoadAccepted.
  pose proof (clone_dom h (len h (acceptedValue m)) (acceptedValue m)) as Hd.
  pose proof (clone_frame h (len h (acceptedValue m)) (acceptedValue m))
    as Hf.
  destruct (make h (len h (acceptedValue m))) as [h1 buf].
  cbn [fst snd] in *. split; [done|]. intros l Hl. by apply Hf.
Qed.

(** X12. The copies touch nothing else. [SaveAccepted] and
    [LoadAccepted] each allocate exactly one new array and write only
    into it: every array that existed before the call, the caller's
    buffer included, holds the same bytes afterwards. *)
Theorem storage_calls_leave_arrays h m p v :
  (let '(h1, _, _) := SaveAccepted h m p v in
   dom h1 = {[fresh (dom h)]} ∪ dom h /\
   forall l, l ∈ dom h -> h1 !! l = h !! l) /\
  (let '(h2, _) := LoadAccepted h m in
   dom h2 = {[fresh (dom h)]} ∪ dom h /\
   forall l, l ∈ dom h -> h2 !! l = h !! l).
Proof.
  pose proof (SaveAccepted_frame h m p v) as Hs.
  pose proof (LoadAccepted_frame h m) as Hl.
  destruct (SaveAccepted h m p v) as [[h1 m1] e1].
  destruct (LoadAccepted h m) as [h2 r2]. by split.
Qed.

(** X13. What [LoadAccepted] hands out. Whatever the store holds, also
    when nothing was ever saved or a nil value was saved,
    [LoadAccepted] returns a nil error, the stored proposal, and a
    slice that is not nil, names an array that did not exist before the
    call, and has the length of the stored value; the store itself is
    not changed. *)
Theorem LoadAccepted_returns_new_slice h m :
  let '(h', (p, r, e)) := LoadAccepted h m in
  e = None /\ p = acceptedProposal m /\
  exists l, r = Some l /\ (l ∉ dom h) /\ (l ∈ dom h') /\
    length (contents h' r) = len h (acceptedValue m).
Proof.
  unfold LoadAccepted.
  pose proof (clone_dom h (len h (acceptedValue m)) (acceptedValue m)) as Hd.
  pose proof (clone_length h (len h (acceptedValue m)) (acceptedValue m))
    as Hl.
  assert ((make h (len h (acceptedValue m))).2 = Some (fresh (dom h))) as Hb
    by reflexivity.
  destruct (make h (len h (acceptedValue m))) as [h1 buf].
  cbn [fst snd] in *. split; [done|]. split; [done|].
  exists (fresh (dom h)). split; [done|]. split; [apply is_fresh|].
  split; [|done].
  rewrite Hd. apply elem_of_union. left. by apply elem_of_singleton.
Qed.

Lemma SaveAccepted_allocated h m p v s :
  allocated h s -> allocated (SaveAccepted h m p v).1.1 s.
Proof.
  intros Hs. destruct s as [l|]; [|done]. cbn [allocated] in *.
  destruct (SaveAccepted_frame h m p v) as [Hd _].
  rewrite Hd. apply elem_of_union. by right.
Qed.

Lemma SaveAccepted_contents h m p v s :
  allocated h s -> contents (SaveAccepted h m p v).1.1 s = contents h s.
Proof.
  intros Hs. destruct s as [l|]; [|done]. cbn [allocated contents] in *.
  destruct (SaveAccepted_frame h m p v) as [_ Hf]. by rewrite Hf.
Qed.

(** X14. Saves compose. The two halves of the store are independent and
    the last save wins: after [SavePromised q], [SaveAccepted p1 v1],
    [SaveAccepted p2 v2] in this order, [LoadPromised] returns [q] and
    [LoadAccepted] returns [p2] with the bytes of [v2]; a further
    [SavePromised q'] changes what [LoadPromised] returns and not what
    [LoadAccepted] returns. *)
Theorem storage_last_save_wins h m q q' p1 v1 p2 v2 :
  allocated h v1 -> allocated h v2 ->
  let '(h1, m1, _) := SaveAccepted h (SavePromised m q).1 p1 v1 in
  let '(h2, m2, _) := SaveAccepted h1 m1 p2 v2 in
  (LoadPromised m2).1 = q /\
  (LoadPromised (SavePromised m2 q').1).1 = q' /\
  (let '(h3, (p, r, _)) := LoadAccepted h2 m2 in
   p = p2 /\ contents h3 r = contents h v2) /\
  (let '(h3, (p, r, _)) := LoadAccepted h2 (SavePromised m2 q').1 in
   p = p2 /\ contents h3 r = contents h v2).
Proof.
  intros Hv1 Hv2.
  pose proof (SaveAccepted_allocated h (SavePromised m q).1 p1 v1 v2 Hv2)
    as Hal.
  pose proof (SaveAccepted_contents h (SavePromised m q).1 p1 v1 v2 Hv2)
    as Hco.
  destruct (SaveAccepted h (SavePromised m q).1 p1 v1) as [[h1 m1] e1] eqn:E1.
  cbn [fst] in Hal, Hco.
  assert (highestPromised m1 = q) as Hq1.
  { unfold SaveAccepted in E1. destruct (make h _) as [hx bx].
    by injection E1 as _ <- _. }
  pose proof (SaveAccepted_keeps h1 m1 p2 v2 Hal) as Hk.
  assert (highestPromised (SaveAccepted h1 m1 p2 v2).1.2 = q) as Hq2.
  { unfold SaveAccepted. by destruct (make h1 _) as [hx bx]. }
  destruct (SaveAccepted h1 m1 p2 v2) as [[h2 m2] e2]. cbn [fst snd] in *.
  rewrite Hco in Hk.
  split; [done|]. split; [done|]. split.
  - pose proof (LoadAccepted_keeps h2 m2 [v2] p2 _ Hk) as HL.
    destruct (LoadAccepted h2 m2) as [h3 [[p r] e]]. tauto.
  - assert (keeps h2 (SavePromised m2 q').1 [v2] p2 (contents h v2)) as Hk'
      by exact Hk.
    pose proof (LoadAccepted_keeps h2 _ [v2] p2 _ Hk') as HL.
    destruct (LoadAccepted h2 (SavePromised m2 q').1) as [h3 [[p r] e]].
    tauto.
Qed.

Lemma storage_last_save_wins_witness :
  allocated Scenario.callerHeap None /\
  allocated Scenario.callerHeap (Some 0%nat) /\
  (let '(h1, m1, _) :=
     SaveAccepted Scenario.callerHeap
       (SavePromised NewMemoryStorage (mkPN 7 "n0")).1 (mkPN 5 "X") None in
   let '(h2, m2, _) := SaveAccepted h1 m1 (mkPN 6 "Y") (Some 0%nat) in
   (LoadPromised m2).1 = mkPN 7 "n0").
Proof.
  assert (allocated Scenario.callerHeap (Some 0%nat)) as Hv
    by (apply (proj2 (elem_of_dom Scenario.callerHeap 0%nat));
        eexists; reflexivity).
  assert (allocated Scenario.callerHeap None) as Hn by exact I.
  split; [exact Hn|]. split; [exact Hv|].
  pose proof (storage_last_save_wins Scenario.callerHeap NewMemoryStorage
                (mkPN 7 "n0") (mkPN 8 "n0") (mkPN 5 "X") None (mkPN 6 "Y")
                (Some 0%nat) Hn Hv) as H.
  destruct (SaveAccepted Scenario.callerHeap
              (SavePromised NewMemoryStorage (mkPN 7 "n0")).1 (mkPN 5 "X")
              None) as [[h1 m1] e1].
  destruct (SaveAccepted h1 m1 (mkPN 6 "Y") (Some 0%nat)) as [[h2 m2] e2].
  exact (proj1 H).
Defined.

End StorageFraming.

(** ** More on the dispatch of the node *)

Section DispatchProperties.
Import Node Dispatch.

Context {AcceptorT LearnerT : Type}.
Context (HandlePrepare : AcceptorT -> Prepare -> AcceptorT * Promise).
Context (HandleAccept : AcceptorT -> Accept -> AcceptorT * Accepted).
Context (HandleAccepted : LearnerT -> Accepted -> LearnerT).
Context (HandleLearn : LearnerT -> Learn -> LearnerT).

Implicit Types (n : @Node AcceptorT LearnerT) (rs : list received).

Lemma routeMessage_keeps n msg :
  let n' := (routeMessage HandlePrepare HandleAccept HandleAccepted
               HandleLearn n msg).1 in
  proposer n' = proposer n /\ id n' = id n /\ quorumSize n' = quorumSize n.
Proof.
  cbn zeta.
  destruct msg as [[m|m|m|m|m|m]|[m|m|m|m|m|m]|from];
    cbn [routeMessage]; unfold routePrepare, routeAccept; try done.
  - by destruct (HandlePrepare (acceptor n) m).
  - destruct (HandleAccept (acceptor n) m) as [a r]. by destruct (Accepted_OK r).
  - by destruct (HandlePrepare (acceptor n) m).
  - destruct (HandleAccept (acceptor n) m) as [a r]. by destruct (Accepted_OK r).
Qed.

(** X15. The dispatch leaves the proposer alone. Whatever the receive
    loop reads, and whatever the acceptor and the learner do with it,
    the node keeps its id, its quorum size and its proposer as they
    were: a node made by [NewNode] still holds
    [NewProposer(id, quorumSize)] after any number of messages, and the
    proposer changes only in [Propose]. *)
Theorem dispatch_keeps_proposer rs : forall n,
  let n' := (handleMessages HandlePrepare HandleAccept HandleAccepted
               HandleLearn n rs).1 in
  proposer n' = proposer n /\ id n' = id n /\ quorumSize n' = quorumSize n /\
  forall i q a l, n = NewNode i q a l ->
    proposer n' = Proposer.NewProposer i q.
Proof.
  induction rs as [|r rs IH]; intros n; cbn zeta.
  - repeat split. by intros i q a l ->.
  - assert (forall n1,
      proposer n1 = proposer n -> id n1 = id n ->
      quorumSize n1 = quorumSize n ->
      let n' := (handleMessages HandlePrepare HandleAccept HandleAccepted
                   HandleLearn n1 rs).1 in
      proposer n' = proposer n /\ id n' = id n /\
      quorumSize n' = quorumSize n /\
      forall i q a l, n = NewNode i q a l ->
        proposer n' = Proposer.NewProposer i q) as Hnext.
    { intros n1 Hp Hi Hq. cbn zeta.
      destruct (IH n1) as (Hp' & Hi' & Hq' & _).
      repeat split; try congruence.
      intros i q a l ->. by rewrite Hp', Hp. }
    destruct r as [|e|msg]; cbn [handleMessages].
    + by apply Hnext.
    + specialize (Hnext n eq_refl eq_refl eq_refl). cbn zeta in Hnext.
      by destruct (handleMessages _ _ _ _ n rs).
    + destruct (routeMessage_keeps n msg) as (Hp & Hi & Hq).
      destruct (routeMessage _ _ _ _ n msg) as [n1 es1]. cbn [fst] in *.
      specialize (Hnext n1 Hp Hi Hq). cbn zeta in Hnext.
      by destruct (handleMessages _ _ _ _ n1 rs).
Qed.

Lemma routeMessage_sends n msg :
  let es := (routeMessage HandlePrepare HandleAccept HandleAccepted
               HandleLearn n msg).2 in
  sendTargets es = replyTargets [Arrived msg] /\ forallb isReply es = true.
Proof.
  cbn zeta.
  destruct msg as [[m|m|m|m|m|m]|[m|m|m|m|m|m]|from];
    cbn [routeMessage]; unfold routePrepare, routeAccept; try done.
  - by destruct (HandlePrepare (acceptor n) m).
  - by destruct (HandleAccept (acceptor n) m) as [a r].
  - by destruct (HandlePrepare (acceptor n) m).
  - by destruct (HandleAccept (acceptor n) m) as [a r].
Qed.

Lemma sendTargets_app es1 es2 :
  sendTargets (es1 ++ es2) = sendTargets es1 ++ sendTargets es2.
Proof. unfold sendTargets. apply omap_app. Qed.

(** X16. The node only answers. The receive loop calls [Send] exactly
    once for each [Prepare] and each [Accept] it reads, by value or by
    pointer, in the order of arrival and addressed to the [From] of
    that message, with a [Promise] or an [Accepted] value; timeouts,
    errors of the transport and all other messages cause no [Send]. *)
Theorem node_sends_only_replies rs : forall n,
  let es := (handleMessages HandlePrepare HandleAccept HandleAccepted
               HandleLearn n rs).2 in
  sendTargets es = replyTargets rs /\ forallb isReply es = true.
Proof.
  induction rs as [|r rs IH]; intros n; cbn zeta; [done|].
  destruct r as [|e|msg]; cbn [handleMessages].
  - apply IH.
  - specialize (IH n). cbn zeta in IH.
    by destruct (handleMessages _ _ _ _ n rs).
  - destruct (routeMessage_sends n msg) as [Ht Hr].
    destruct (routeMessage _ _ _ _ n msg) as [n1 es1]. cbn [snd] in *.
    specialize (IH n1). cbn zeta in IH.
    destruct (handleMessages _ _ _ _ n1 rs) as [n2 es2]. cbn [snd] in *.
    destruct IH as [IHt IHr]. split.
    + rewrite sendTargets_app, Ht, IHt.
      change (replyTargets (Arrived msg :: rs))
        with (replyTargets ([Arrived msg] ++ rs)).
      unfold replyTargets. by rewrite omap_app.
    + by rewrite forallb_app, Hr, IHr.
Qed.

(** X17. The receive loop composes. Reading one run of returns of
    [ReceiveTimeout] and then another is the same as reading them in
    one go: the second part starts from the node the first part left,
    and the effects follow each other.  Timeouts change nothing: with
    or without them the node and the effects are the same. *)
Theorem handleMessages_composes rs1 : forall rs2 n,
  handleMessages HandlePrepare HandleAccept HandleAccepted HandleLearn n
    (rs1 ++ rs2)
  = (let '(n1, es1) :=
       handleMessages HandlePrepare HandleAccept HandleAccepted HandleLearn
         n rs1 in
     let '(n2, es2) :=
       handleMessages HandlePrepare HandleAccept HandleAccepted HandleLearn
         n1 rs2 in
     (n2, es1 ++ es2)) /\
  handleMessages HandlePrepare HandleAccept HandleAccepted HandleLearn n
    (List.filter notTimeout rs1)
  = handleMessages HandlePrepare HandleAccept HandleAccepted HandleLearn n
      rs1.
Proof.
  induction rs1 as [|r rs1 IH]; intros rs2 n.
  - cbn [app handleMessages List.filter]. split; [|done].
    by destruct (handleMessages _ _ _ _ n rs2).
  - destruct r as [|e|msg]; cbn [app handleMessages List.filter notTimeout].
    + apply IH.
    + destruct (IH rs2 n) as [-> ->]. split; [|done].
      destruct (handleMessages _ _ _ _ n rs1) as [n1 es1].
      by destruct (handleMessages _ _ _ _ n1 rs2) as [n2 es2].
    + destruct (routeMessage _ _ _ _ n msg) as [n0 es0].
      destruct (IH rs2 n0) as [-> ->]. split; [|done].
      destruct (handleMessages _ _ _ _ n0 rs1) as [n1 es1].
      destruct (handleMessages _ _ _ _ n1 rs2) as [n2 es2].
      by rewrite app_assoc.
Qed.

End DispatchProperties.

(** ** Starting and stopping the node *)

Section LifecycleProperties.
Import Lifecycle.

Lemma Start_consistent s : consistent s -> consistent (Start s).
Proof.
  intros Hs. unfold Start.
  destruct (running s) eqn:Hr; [done|].
  destruct Hs as (Hl & Hc & Hcl & Hopen). rewrite Hr in Hl.
  repeat split; cbn.
  - by rewrite Hl.
  - lia.
  - eapply Forall_impl; [exact Hcl|]. cbn beta. lia.
  - intros _ Hin. rewrite Forall_forall in Hcl.
    specialize (Hcl _ (proj2 (list_elem_of_In _ _) Hin)). lia.
Qed.

Lemma Stop_consistent s :
  consistent s -> exists s', Stop s = Some s' /\ consistent s'.
Proof.
  intros Hs. unfold Stop.
  destruct (running s) eqn:Hr; cbn [negb]; [|by exists s].
  destruct Hs as (Hl & Hc & Hcl & Hopen). rewrite Hr in Hl.
  destruct (existsb (Nat.eqb (stopCh s)) (closed s)) eqn:Hex.
  - apply existsb_exists in Hex as (c & Hin & Heq).
    apply Nat.eqb_eq in Heq. subst c. by destruct (Hopen Hr).
  - eexists. split; [reflexivity|]. repeat split; cbn.
    + by rewrite Hl.
    + done.
    + by constructor.
    + discriminate.
Qed.

Lemma run_consistent calls : forall s,
  consistent s -> exists s', run calls s = Some s' /\ consistent s'.
Proof.
  induction calls as [|[|] calls IH]; intros s Hs; cbn [run].
  - by exists s.
  - by apply IH, Start_consistent.
  - destruct (Stop_consistent s Hs) as (s' & -> & Hs'). by apply IH.
Qed.

(** X18. Start and Stop, called one after the other in any order and
    any number of times on a new node, never close a channel twice (no
    call panics), and between calls exactly one receive loop runs while
    the node is started and none while it is stopped.  A second [Start]
    in a row and a second [Stop] in a row change nothing. *)
Theorem lifecycle_is_safe calls :
  (exists s, run calls initial = Some s /\ consistent s) /\
  (forall s, Start (Start s) = Start s) /\
  (forall s s', Stop s = Some s' -> Stop s' = Some s').
Proof.
  split; [|split].
  - apply run_consistent. repeat split; cbn; (lia || constructor || done).
  - intros s. unfold Start. destruct (running s) eqn:Hr; [by rewrite Hr|done].
  - intros s s'. unfold Stop.
    destruct (running s) eqn:Hr; cbn [negb].
    + destruct (existsb _ _); [discriminate|]. by intros [= <-].
    + intros [= <-]. by rewrite Hr.
Qed.

End LifecycleProperties.

(** ** The numbers of one call of [Propose] *)

Section RetryNumbers.
Import Transport Proposer Traffic Scenario.
Local Open Scope Z_scope.

Implicit Types (p : Proposer) (t : Transport) (events : list event).

Lemma awaitPromises_round events closing : forall p count p' events' st,
  awaitPromises events closing p count = (p', events', st) ->
  highestRound p' = highestRound p \/
  exists pr, In (Deliver (ByValue (PPromise pr))) events /\
    highestRound p' = Round (Promise_AcceptedProposal pr) /\
    highestRound p < highestRound p'.
Proof.
  induction events as [|ev events IH]; intros p count p' events' st Hrun;
    cbn [awaitPromises] in Hrun.
  - destruct (count <? quorumSize p); [destruct closing|];
      injection Hrun as <- _ _; by left.
  - destruct (count <? quorumSize p); [|injection Hrun as <- _ _; by left].
    assert (forall p0 count0,
      awaitPromises events closing p0 count0 = (p', events', st) ->
      highestRound p0 = highestRound p ->
      highestRound p' = highestRound p \/
      exists pr, In (Deliver (ByValue (PPromise pr))) (ev :: events) /\
        highestRound p' = Round (Promise_AcceptedProposal pr) /\
        highestRound p < highestRound p') as Hstep.
    { intros p0 count0 Hrun0 Hhr.
      apply IH in Hrun0 as [Hsame | (pr & Hin & Heq & Hlt)].
      - left. congruence.
      - right. exists pr. split; [by right|]. split; [done|]. by rewrite <- Hhr. }
    destruct ev as [[[m|pr|m|m|m|m]|pl|from]|e];
      try (by apply (Hstep p count Hrun)).
    + destruct (PN.Equal (Promise_ProposalNumber pr) (currentProposal p));
        cbn [negb] in Hrun; [|by apply (Hstep p count Hrun)].
      destruct (Promise_OK pr); cbn [negb] in Hrun;
        [by apply (Hstep _ _ Hrun)|].
      injection Hrun as <- _ _. unfold handleRejection.
      destruct (Z.gtb_spec (Round (Promise_AcceptedProposal pr))
                  (highestRound p)); [|by left].
      right. exists pr. split; [by left|]. split; [done|]. cbn. lia.
    + injection Hrun as <- _ _. by left.
Qed.

Lemma reportedAtMost_weaken b1 b2 pre events :
  b1 <= b2 -> reportedAtMost b1 (pre ++ events) -> reportedAtMost b2 events.
Proof.
  intros Hb Hall. apply Forall_app in Hall as [_ Hall].
  eapply Forall_impl; [exact Hall|]. cbn beta.
  intros [[[m|pr|m|m|m|m]|pl|from]|e]; try done. lia.
Qed.

Lemma preparesOf_app a b : preparesOf (a ++ b) = preparesOf a ++ preparesOf b.
Proof. unfold preparesOf. apply omap_app. Qed.

Lemma proposeLoop_numbers fuel : forall p t,
  Int64.min_int <= highestRound p ->
  highestRound p <= Int64.max_int - Z.of_nat fuel ->
  reportedAtMost (Int64.max_int - Z.of_nat fuel) (inbox t) ->
  exists new,
    sent (transportAfter (proposeLoop fuel p t)) = sent t ++ new /\
    increasing (preparesOf new) /\
    Forall (fun n => highestRound p < Round n) (preparesOf new).
Proof.
  induction fuel as [|fuel IH]; intros p t Hmin Hmax Hrep; cbn [proposeLoop].
  - exists []. rewrite app_nil_r. repeat split; constructor.
  - rewrite Nat2Z.inj_succ in Hmax, Hrep.
    assert (highestRound (beginAttempt p) = highestRound p + 1) as Hr0.
    { cbn. apply incr_below_max. lia. }
    assert (currentProposal (beginAttempt p)
            = mkPN (highestRound p + 1) (id p)) as Hcur0.
    { cbn. f_equal. apply incr_below_max. lia. }
    destruct (runPhase1 (beginAttempt p) t) as [[p1 t1] st1] eqn:E1.
    pose proof E1 as E1'.
    apply runPhase1_frame in E1
      as ((consumed1 & Hin1 & _) & _ & _ & _ & _ & _ & Hhr1 & _ & Hs1).
    assert (highestRound p1 <= Int64.max_int - Z.of_nat fuel) as Hmax1.
    { unfold runPhase1 in E1'.
      rewrite Broadcast_inbox, Broadcast_closing in E1'.
      destruct (awaitPromises _ _ _ _) as [[px ex] sx] eqn:Eloop.
      assert (highestRound p1 = highestRound px) as ->
        by (destruct sx; by injection E1' as <- _ _).
      apply awaitPromises_round in Eloop
        as [-> | (pr & Hin & -> & _)]; [lia|].
      unfold reportedAtMost in Hrep. rewrite Forall_forall in Hrep.
      specialize (Hrep _ (proj2 (list_elem_of_In _ _) Hin)).
      cbn beta iota in Hrep. lia. }
    assert (exists new1, sent t1 = sent t ++ new1 /\
              (preparesOf new1 = [] \/
               preparesOf new1 = [mkPN (highestRound p + 1) (id p)]))
      as (new1 & Hnew1 & Hpre1).
    { rewrite Hcur0 in Hs1. destruct Hs1 as [-> | ->].
      - exists []. rewrite app_nil_r. split; [done|]. by left.
      - eexists [_]. split; [reflexivity|]. by right. }
    assert (forall news, increasing (preparesOf news) ->
              Forall (fun n => highestRound p1 < Round n) (preparesOf news) ->
              increasing (preparesOf (new1 ++ news)) /\
              Forall (fun n => highestRound p < Round n)
                (preparesOf (new1 ++ news))) as Hglue.
    { intros news Hinc Habove. rewrite preparesOf_app.
      assert (Forall (fun n => highestRound p < Round n) (preparesOf news))
        as Habove' by (eapply Forall_impl; [exact Habove|]; cbn beta; lia).
      destruct Hpre1 as [-> | ->]; [done|].
      cbn [app]. split.
      - constructor; [done|]. eapply Forall_impl; [exact Habove|].
        cbn beta. intros n Hn. apply LessThan_Round. cbn. lia.
      - constructor; [cbn; lia | done]. }
    assert (forall p0 t0 new0,
              highestRound p0 = highestRound p1 ->
              sent t0 = sent t ++ new1 ++ new0 -> preparesOf new0 = [] ->
              (exists pre, inbox t = pre ++ inbox t0) ->
              exists new,
                sent (transportAfter (proposeLoop fuel p0 t0)) = sent t ++ new /\
                increasing (preparesOf new) /\
                Forall (fun n => highestRound p < Round n) (preparesOf new))
      as Hnext.
    { intros p0 t0 new0 Hhr0 Hsent0 Hnone [pre Hpre].
      destruct (IH p0 t0) as (new & Hnew & Hinc & Habove).
      - lia.
      - lia.
      - rewrite Hpre in Hrep. eapply reportedAtMost_weaken; [|exact Hrep]. lia.
      - exists (new1 ++ new0 ++ new).
        rewrite Hnew, Hsent0, <- !app_assoc. split; [done|].
        rewrite Hhr0 in Habove.
        assert (preparesOf (new0 ++ new) = preparesOf new) as Heq
          by (by rewrite preparesOf_app, Hnone).
        destruct (Hglue (new0 ++ new)) as [H1 H2];
          [by rewrite Heq | by rewrite Heq | done]. }
    assert (forall news, preparesOf news = [] ->
              increasing (preparesOf (new1 ++ news)) /\
              Forall (fun n => highestRound p < Round n)
                (preparesOf (new1 ++ news))) as Hstop.
    { intros news Hnone. apply Hglue; rewrite Hnone; constructor. }
    destruct st1 as [|e|].
    + destruct (runPhase2 p1 t1) as [[p2 t2] st2] eqn:E2.
      apply runPhase2_frame in E2
        as (-> & (consumed2 & Hin2) & _ & (new2 & Hnew2 & Hall2) & _).
      assert (preparesOf new2 = []) as Hnone2.
      { clear -Hall2. induction Hall2 as [|m ms [-> | ->] _ IHm]; [done| |];
          by cbn. }
      assert (sent t2 = sent t ++ new1 ++ new2) as Hsent2
        by (by rewrite Hnew2, Hnew1, app_assoc).
      destruct st2 as [|e|]; cbn [transportAfter].
      * exists (new1 ++ new2). split; [done|]. by apply Hstop.
      * apply (Hnext p1 t2 new2); [done|done|done|].
        exists (consumed1 ++ consumed2). by rewrite Hin1, Hin2, app_assoc.
      * exists (new1 ++ new2). split; [done|]. by apply Hstop.
    + apply (Hnext p1 t1 []); [done|by rewrite app_nil_r|done|].
      by exists consumed1.
    + cbn [transportAfter]. exists (new1 ++ []).
      rewrite app_nil_r at 1. split; [done|]. by apply Hstop.
Qed.

(** X19. The numbers of one call. As long as no round reaches the
    largest [int64] (the proposer's round and the rounds reported by
    Promises leave room for one increment per attempt), the Prepares
    that one call of [Propose] broadcasts carry strictly increasing
    proposal numbers, all above the round the proposer had when the
    call began: every retry uses a number greater than all it used
    before. *)
Theorem propose_retries_with_greater_numbers fuel p t value :
  Int64.min_int <= highestRound p ->
  highestRound p <= Int64.max_int - Z.of_nat fuel ->
  reportedAtMost (Int64.max_int - Z.of_nat fuel) (inbox t) ->
  exists new,
    sent (transportAfter (Propose fuel p t value)) = sent t ++ new /\
    increasing (preparesOf new) /\
    Forall (fun n => highestRound p < Round n) (preparesOf new).
Proof.
  intros Hmin Hmax Hrep. unfold Propose.
  exact (proposeLoop_numbers fuel
           (mkProposer (id p) (highestRound p) (currentProposal p) value
              value (promise p) (quorumSize p)) t Hmin Hmax Hrep).
Qed.

Lemma propose_retries_with_greater_numbers_witness :
  exists new,
    sent (transportAfter
            (Propose 2 retryProposer retryTransport (bytes_of "B")))
      = sent retryTransport ++ new /\
    preparesOf new = [mkPN 1 "n0"; mkPN 2 "n0"].
Proof.
  destruct (propose_retries_with_greater_numbers 2 retryProposer
              retryTransport (bytes_of "B"))
    as (new & Hsent & _).
  - vm_compute. discriminate.
  - vm_compute. discriminate.
  - repeat constructor; vm_compute; discriminate.
  - exists new. split; [exact Hsent|].
    vm_compute in Hsent. subst new. reflexivity.
Defined.

End RetryNumbers.
